(** * petl.transform.validation: [validate], [ProblemsView], [iterproblems]

    A shallow embedding of [src/petl/transform/validation.py].

    - Python values are an inductive type [value]; user callables
      (getters, tests, assertions) are functions into [result], whose
      [Raise] case carries the class name of the raised exception
      ([type(e).__name__]).
    - Constraint dictionaries are objects living in a store ([heap]);
      the constraint list passed by the caller is a list of references
      into it, so that the copy [dict] makes of a constraint (a new object) and
      [constraint['getter'] = getter] (a write to an object) are
      visible as such.
    - The generator [iterproblems] becomes a function returning the
      store it leaves behind and an [outcome]: the trace of what it
      yielded and which user callables it invoked, and the exception
      that ended it, if any. *)

From Stdlib Require Import ZArith Sorted.
From stdpp Require Import base list strings pretty sorting.

Open Scope string_scope.
Open Scope list_scope.

(** ** Values, exceptions, callables *)

#[warnings="-register-all"]
Inductive value : Type :=
  | VNone
  | VBool (b : bool)
  | VInt (z : Z)
  | VStr (s : string)
  | VTuple (vs : list value)
  | VRecord (row : list value) (flds : list string).

(** Python truthiness ([if x], [assert x]). *)
Definition truthy (v : value) : bool :=
  match v with
  | VNone => false
  | VBool b => b
  | VInt z => negb (z =? 0)%Z
  | VStr s => negb (String.eqb s "")
  | VTuple vs => negb (Nat.eqb (length vs) 0)
  | VRecord row _ => negb (Nat.eqb (length row) 0)
  end.

(** The outcome of calling Python code: a value, or a raised
    [Exception] identified by its class name. *)
Inductive result (A : Type) : Type :=
  | Ok (a : A)
  | Raise (e : string).
Arguments Ok {A} a.
Arguments Raise {A} e.

Definition callable := value -> result value.

(** ** Collaborators that are not part of this file's source *)

(** A table cell that can stand in a header row. *)
Inductive hcell : Type :=
  | HNone
  | HBool (b : bool)
  | HInt (z : Z)
  | HStr (s : string).

(** Modelled from the spec: [text_type] ([petl.compat], [str] /
    [unicode]) is the "string normalization" of header cells: a string
    is itself, other cells are rendered as Python's [str] does. *)
Definition text_type (c : hcell) : string :=
  match c with
  | HNone => "None"
  | HBool true => "True"
  | HBool false => "False"
  | HInt z => pretty z
  | HStr s => s
  end.

(** Modelled from the spec: [Record] ([petl.util.base]) is a row (a
    tuple) that remembers the field list, addressable by position.
    The docstring of [validate] (row 7, [(6, '2000-01-01')], reported
    with value [None] under ['AssertionError']) shows that a position
    past the end of a short row reads as [None]. *)
Record Record_ : Type := mkRecord { r_row : list value; r_flds : list string }.

Definition Record_value (r : Record_) : value := VRecord (r_row r) (r_flds r).

Definition Record_getitem (r : Record_) (idx : nat) : value :=
  default VNone (r_row r !! idx).

(** A constraint's ['field']: one field name, or an ordered collection
    (tuple or list) of field names. *)
Inductive field_spec : Type :=
  | FName (s : string)
  | FNames (ss : list string).

Definition spec_names (spec : field_spec) : list string :=
  match spec with
  | FName s => [s]
  | FNames ss => ss
  end.

(** [flds.index(s)] *)
Fixpoint index_of (flds : list string) (s : string) : option nat :=
  match flds with
  | [] => None
  | f :: rest => if String.eqb f s then Some 0 else S <$> index_of rest s
  end.

Fixpoint resolve_names (flds : list string) (names : list string) : result (list nat) :=
  match names with
  | [] => Ok []
  | s :: rest =>
      match index_of flds s with
      | None => Raise "FieldSelectionError"
      | Some i =>
          match resolve_names flds rest with
          | Ok is_ => Ok (i :: is_)
          | Raise e => Raise e
          end
      end
  end.

(** Modelled from the spec: [asindices] ([petl.util.base]) maps one or
    more field names to their positions in the field list and fails
    with a lookup error (the source's comment names it:
    [FieldSelectionError]) if a name is absent. *)
Definition asindices (flds : list string) (spec : field_spec) : result (list nat) :=
  resolve_names flds (spec_names spec).

Definition getter_t := Record_ -> result value.

(** [operator.itemgetter] on the unpacked indices: no index is a [TypeError]; one
    index selects the item itself; several select a tuple of items. *)
Definition itemgetter (indices : list nat) : result getter_t :=
  match indices with
  | [] => Raise "TypeError"
  | [i] => Ok (fun r => Ok (Record_getitem r i))
  | _ => Ok (fun r => Ok (VTuple (map (Record_getitem r) indices)))
  end.

(** ** Constraints and the object store *)

(** A constraint dictionary; [None] is an absent key. *)
Record constraint : Type := mkConstraint {
  c_name : option string;
  c_field : option field_spec;
  c_optional : option bool;
  c_getter : option getter_t;
  c_test : option callable;
  c_assertion : option callable;
}.

Definition empty_dict : constraint :=
  {| c_name := None; c_field := None; c_optional := None;
     c_getter := None; c_test := None; c_assertion := None |}.

#[global] Instance constraint_inhabited : Inhabited constraint := populate empty_dict.

(** [constraint['getter'] = getter] on the dictionary's contents. *)
Definition set_getter (g : getter_t) (c : constraint) : constraint :=
  {| c_name := c_name c; c_field := c_field c; c_optional := c_optional c;
     c_getter := Some g; c_test := c_test c; c_assertion := c_assertion c |}.

(** The store of constraint dictionaries: object [r] is cell [r]. *)
Abbreviation ref := nat (only parsing).
Abbreviation heap := (list constraint) (only parsing).

(** Line 108, [dict] of the entries of [c]: a new object holding them. *)
Definition dict_copy (h : heap) (c : ref) : heap * ref :=
  (h ++ [h !!! c], length h).

(** Line 108, the list of these copies, one per listed constraint. *)
Fixpoint copy_constraints (h : heap) (cs : list ref) : heap * list ref :=
  match cs with
  | [] => (h, [])
  | c :: rest =>
      let '(h1, r) := dict_copy h c in
      let '(h2, rs) := copy_constraints h1 rest in
      (h2, r :: rs)
  end.

(** ** Problem records and the trace of a pass *)

Record problem : Type := mkProblem {
  p_name : option string;
  p_row : nat;
  p_field : option field_spec;
  p_value : value;
  p_error : string;
}.

Inductive item : Type :=
  | Header (names : list string)
  | Problem (p : problem).

Inductive site : Type := Getter | Test | Assertion.

Inductive event : Type :=
  | Call (s : site) (arg : value)
  | Yield (x : item).

Record outcome : Type := mkOutcome {
  trace : list event;
  raised : option string;
}.

Definition yields (t : list event) : list item :=
  omap (fun ev => match ev with Yield x => Some x | Call _ _ => None end) t.

Definition problems_of (xs : list item) : list problem :=
  omap (fun x => match x with Problem p => Some p | Header _ => None end) xs.

Definition emitted (o : outcome) : list item := yields (trace o).
Definition problems (o : outcome) : list problem := problems_of (emitted o).

Definition calls (t : list event) : list site :=
  omap (fun ev => match ev with Call s _ => Some s | Yield _ => None end) t.

(** ** The source, line by line *)

Definition outhdr : list string := ["name"; "row"; "field"; "value"; "error"].

Definition header_problem : problem :=
  mkProblem (Some "__header__") 0 None VNone "AssertionError".

(** Lines 95-104: the header check and the effective field list. *)
Definition check_header (actual_header : list hcell) (expected_header : option (list hcell))
  : list event * list string :=
  match expected_header with
  | None => ([], map text_type actual_header)
  | Some eh =>
      let expected_flds := map text_type eh in
      let actual_flds := map text_type actual_header in
      (if bool_decide (expected_flds = actual_flds) then []
       else [Yield (Problem header_problem)],
       expected_flds)
  end.

(** [constraint['field'] not in flds]: membership in a list of strings;
    a tuple or list of names is never equal to a string. *)
Definition field_in_flds (f : field_spec) (flds : list string) : bool :=
  match f with
  | FName s => bool_decide (s ∈ flds)
  | FNames _ => false
  end.

(** Lines 116-117. *)
Definition make_getter (flds : list string) (f : field_spec) : result getter_t :=
  match asindices flds f with
  | Raise e => Raise e
  | Ok indices => itemgetter indices
  end.

(** Lines 110-118, the decisions taken on one constraint dictionary:
    [Ok None] leaves it as it is, [Ok (Some g)] attaches [g]. *)
Definition compile_one (flds : list string) (c : constraint) : result (option getter_t) :=
  match c_getter c with
  | Some _ => Ok None
  | None =>
      match c_field c with
      | None => Ok None
      | Some f =>
          if negb (field_in_flds f flds) then
            match c_optional c with
            | None => Raise "KeyError"
            | Some true => Ok None
            | Some false =>
                match make_getter flds f with
                | Ok g => Ok (Some g)
                | Raise e => Raise e
                end
            end
          else
            match make_getter flds f with
            | Ok g => Ok (Some g)
            | Raise e => Raise e
            end
      end
  end.

(** Lines 109-118: the loop over the working copies, writing getters
    into the store; an exception leaves the store as it is by then. *)
Fixpoint setup_getters (flds : list string) (h : heap) (rs : list ref) : heap * option string :=
  match rs with
  | [] => (h, None)
  | r :: rest =>
      match compile_one flds (h !!! r) with
      | Raise e => (h, Some e)
      | Ok None => setup_getters flds h rest
      | Ok (Some g) => setup_getters flds (<[r := set_getter g (h !!! r)]> h) rest
      end
  end.

(** [if constraints:] *)
Definition nonempty (constraints : option (list ref)) : bool :=
  match constraints with
  | Some (_ :: _) => true
  | _ => false
  end.

Definition refs_of (constraints : option (list ref)) : list ref :=
  match constraints with
  | Some cs => cs
  | None => []
  end.

Definition len_problem (row_index l : nat) : problem :=
  mkProblem (Some "__len__") row_index None (VInt (Z.of_nat l)) "AssertionError".

(** Lines 126-131. *)
Definition check_len (expected_len : nat) (i : nat) (row : list value) : list event :=
  let l := length row in
  if Nat.eqb l expected_len then []
  else [Yield (Problem (len_problem (i + 1) l))].

(** [target if field else None] *)
Definition field_truthy (f : option field_spec) : bool :=
  match f with
  | None => false
  | Some (FName s) => negb (String.eqb s "")
  | Some (FNames ss) => negb (Nat.eqb (length ss) 0)
  end.

(** Lines 149-154. *)
Definition run_test (c : constraint) (i : nat) (target value_ : value) : list event :=
  match c_test c with
  | None => []
  | Some test =>
      Call Test target ::
      match test target with
      | Raise e => [Yield (Problem (mkProblem (c_name c) (i + 1) (c_field c) value_ e))]
      | Ok _ => []
      end
  end.

(** Lines 155-160. *)
Definition run_assertion (c : constraint) (i : nat) (target value_ : value) : list event :=
  match c_assertion c with
  | None => []
  | Some assertion =>
      Call Assertion target ::
      match assertion target with
      | Raise e => [Yield (Problem (mkProblem (c_name c) (i + 1) (c_field c) value_ e))]
      | Ok v =>
          if truthy v then []
          else [Yield (Problem (mkProblem (c_name c) (i + 1) (c_field c) value_ "AssertionError"))]
      end
  end.

(** [constraint.get('getter', lambda x: x)] *)
Definition getter_of (c : constraint) : getter_t :=
  default (fun x => Ok (Record_value x)) (c_getter c).

(** Lines 137-160: one constraint against one row. *)
Definition check_constraint (c : constraint) (i : nat) (row : Record_) : list event :=
  Call Getter (Record_value row) ::
  match getter_of c row with
  | Raise e => [Yield (Problem (mkProblem (c_name c) (i + 1) (c_field c) VNone e))]
  | Ok target =>
      let value_ := if field_truthy (c_field c) then target else VNone in
      run_test c i target value_ ++ run_assertion c i target value_
  end.

(** Lines 123-160: one data row. *)
Definition check_row (h : heap) (flds : list string) (constraints : option (list ref))
    (i : nat) (row : list value) : list event :=
  check_len (length flds) i row ++
  (if nonempty constraints then
     flat_map (fun r => check_constraint (h !!! r) i (mkRecord row flds)) (refs_of constraints)
   else []).

(** Lines 122-160: [for i, row in enumerate(it)], counting from [i]. *)
Fixpoint scan_rows (h : heap) (flds : list string) (constraints : option (list ref))
    (i : nat) (rows : list (list value)) : list event :=
  match rows with
  | [] => []
  | row :: rest => check_row h flds constraints i row ++ scan_rows h flds constraints (S i) rest
  end.

(** A table: its header row and its data rows. *)
Record table : Type := mkTable {
  tbl_header : list hcell;
  tbl_rows : list (list value);
}.

(** Lines 106-160: everything after the header check. *)
Definition validate_rows (h : heap) (flds : list string) (constraints : option (list ref))
    (rows : list (list value)) : heap * outcome :=
  let '(h1, constraints1) :=
    if nonempty constraints then
      let '(h', rs) := copy_constraints h (refs_of constraints) in (h', Some rs)
    else (h, constraints) in
  match setup_getters flds h1 (if nonempty constraints then refs_of constraints1 else []) with
  | (h2, Some e) => (h2, mkOutcome [] (Some e))
  | (h2, None) => (h2, mkOutcome (scan_rows h2 flds constraints1 0 rows) None)
  end.

Definition iterproblems (h : heap) (tbl : table) (constraints : option (list ref))
    (expected_header : option (list hcell)) : heap * outcome :=
  let '(hdr_events, flds) := check_header (tbl_header tbl) expected_header in
  let '(h', o) := validate_rows h flds constraints (tbl_rows tbl) in
  (h', mkOutcome (Yield (Header outhdr) :: hdr_events ++ trace o) (raised o)).

(** [ProblemsView] and [validate]. *)
Record ProblemsView : Type := mkProblemsView {
  pv_table : table;
  pv_constraints : option (list ref);
  pv_header : option (list hcell);
}.

Definition validate (tbl : table) (constraints : option (list ref))
    (header : option (list hcell)) : ProblemsView :=
  mkProblemsView tbl constraints header.

Definition ProblemsView_iter (v : ProblemsView) (h : heap) : heap * outcome :=
  iterproblems h (pv_table v) (pv_constraints v) (pv_header v).

(** ** The end-to-end example *)

Definition positive_int : callable :=
  fun v => match v with
           | VInt z => Ok (VBool (0 <? z)%Z)
           | VBool b => Ok (VBool b)
           | _ => Raise "TypeError"
           end.

Definition foo_pos : constraint :=
  {| c_name := Some "foo_pos"; c_field := Some (FName "foo"); c_optional := None;
     c_getter := None; c_test := None; c_assertion := Some positive_int |}.

Definition foo_bar_table : table :=
  mkTable [HStr "foo"; HStr "bar"]
          [ [VInt 1; VStr "a"]; [VInt (-1); VStr "b"]; [VInt 2; VStr "c"; VStr "extra"] ].

(** ** The pass read off the store

    What a pass reads and writes in the store, as functions on the
    contents of the dictionaries. They are related to the source's
    loops by the lemmas of the next part. *)

(** The contents of the working copies, in list order. *)
Fixpoint copied (h : heap) (cs : list ref) : list constraint :=
  match cs with
  | [] => []
  | c :: rest => h !!! c :: copied (h ++ [h !!! c]) rest
  end.

(** The contents of one working copy after lines 110-118. *)
Definition attach (og : option getter_t) (c : constraint) : constraint :=
  match og with
  | None => c
  | Some g => set_getter g c
  end.

(** The contents of all working copies after the loop of lines
    109-118, and the exception that cut it short. *)
Fixpoint compile_all (flds : list string) (ws : list constraint)
  : list constraint * option string :=
  match ws with
  | [] => ([], None)
  | c :: rest =>
      match compile_one flds c with
      | Raise e => (c :: rest, Some e)
      | Ok og =>
          let '(rest', e) := compile_all flds rest in
          (attach og c :: rest', e)
      end
  end.

(** One data row against the contents of the working copies. *)
Definition row_block (flds : list string) (ws : list constraint) (i : nat)
    (row : list value) : list event :=
  check_len (length flds) i row ++
  flat_map (fun c => check_constraint c i (mkRecord row flds)) ws.

Fixpoint scan_blocks (flds : list string) (ws : list constraint) (i : nat)
    (rows : list (list value)) : list event :=
  match rows with
  | [] => []
  | row :: rest => row_block flds ws i row ++ scan_blocks flds ws (S i) rest
  end.

(** Every listed reference points at an object of the store. *)
Definition live (h : heap) (cs : list ref) : Prop :=
  Forall (fun c => c < length h) cs.


(** The problem records among the events of a trace. *)
Definition ev_problems (t : list event) : list problem := problems_of (yields t).

(** How an assertion fails on a target: it raises, or returns a falsy
    value (line 157). *)
Definition assertion_failure (r : result value) : option string :=
  match r with
  | Raise e => Some e
  | Ok v => if truthy v then None else Some "AssertionError"
  end.

(** The problem records of the row loop, one list per data row. *)
Fixpoint block_list (flds : list string) (ws : list constraint) (i : nat)
    (rows : list (list value)) : list (list problem) :=
  match rows with
  | [] => []
  | row :: rest => ev_problems (row_block flds ws i row) :: block_list flds ws (S i) rest
  end.

(** ** Example data *)

(** [lambda v: False] *)
Definition never : callable := fun _ => Ok (VBool false).

(** [lambda v: True] *)
Definition always : callable := fun _ => Ok (VBool true).

(** A test that rejects everything with a [ValueError]. *)
Definition reject : callable := fun _ => Raise "ValueError".

Definition a_c_table : table :=
  mkTable [HStr "a"; HStr "c"] [ [VInt 1; VInt 2] ].

(** [dict(name='x_chk', field='x', optional=True, assertion=lambda v: False)] *)
Definition x_chk : constraint :=
  {| c_name := Some "x_chk"; c_field := Some (FName "x"); c_optional := Some true;
     c_getter := None; c_test := None; c_assertion := Some never |}.

(** [dict(name='foo_bar', field=('foo', 'bar'), assertion=lambda v: True)] *)
Definition foo_bar_pair : constraint :=
  {| c_name := Some "foo_bar"; c_field := Some (FNames ["foo"; "bar"]); c_optional := None;
     c_getter := None; c_test := None; c_assertion := Some always |}.

(** [dict(name='x_first', field='x', getter=lambda row: row[0],
    assertion=lambda v: v > 0)] *)
Definition x_first : constraint :=
  {| c_name := Some "x_first"; c_field := Some (FName "x"); c_optional := None;
     c_getter := Some (fun r => Ok (Record_getitem r 0));
     c_test := None; c_assertion := Some positive_int |}.

(** [dict(name='both', field='foo', test=reject, assertion=lambda v: False)] *)
Definition both_fail : constraint :=
  {| c_name := Some "both"; c_field := Some (FName "foo"); c_optional := None;
     c_getter := None; c_test := Some reject; c_assertion := Some never |}.

(** A constraint whose own getter looks up a key the row does not have. *)
Definition bad_getter : constraint :=
  {| c_name := Some "lookup"; c_field := None; c_optional := None;
     c_getter := Some (fun _ => Raise "KeyError");
     c_test := Some reject; c_assertion := Some never |}.

(** *** The example of the docstring of [validate]

    The callables stand for [int], [etl.dateparser('%Y-%m-%d')],
    [lambda v: v in ['Y', 'N']] and [lambda row: None not in row] on
    the values of the docstring's table. *)

Definition py_int : callable :=
  fun v => match v with
           | VInt z => Ok (VInt z)
           | VBool b => Ok (VInt (if b then 1 else 0))
           | VStr _ => Raise "ValueError"
           | _ => Raise "TypeError"
           end.

Definition parse_date : callable :=
  fun v => match v with
           | VStr s =>
               if bool_decide (s ∈ ["2000-01-01"; "2010-10-10"; "2015-12-12"; "2001-02-02"])
               then Ok (VStr s) else Raise "ValueError"
           | _ => Raise "AttributeError"
           end.

Definition is_Y_or_N : callable :=
  fun v => match v with
           | VStr s => Ok (VBool (bool_decide (s ∈ ["Y"; "N"])))
           | _ => Ok (VBool false)
           end.

Definition is_none (v : value) : bool :=
  match v with VNone => true | _ => false end.

Definition none_not_in : callable :=
  fun v => match v with
           | VRecord row _ | VTuple row => Ok (VBool (negb (existsb is_none row)))
           | _ => Raise "TypeError"
           end.

Definition doc_constraints : list constraint :=
  [ {| c_name := Some "foo_int"; c_field := Some (FName "foo"); c_optional := None;
       c_getter := None; c_test := Some py_int; c_assertion := None |};
    {| c_name := Some "bar_date"; c_field := Some (FName "bar"); c_optional := None;
       c_getter := None; c_test := Some parse_date; c_assertion := None |};
    {| c_name := Some "baz_enum"; c_field := Some (FName "baz"); c_optional := None;
       c_getter := None; c_test := None; c_assertion := Some is_Y_or_N |};
    {| c_name := Some "not_none"; c_field := None; c_optional := None;
       c_getter := None; c_test := None; c_assertion := Some none_not_in |} ].

Definition doc_table : table :=
  mkTable [HStr "foo"; HStr "bar"; HStr "bazzz"]
    [ [VInt 1; VStr "2000-01-01"; VStr "Y"];
      [VStr "x"; VStr "2010-10-10"; VStr "N"];
      [VInt 2; VStr "2000/01/01"; VStr "Y"];
      [VInt 3; VStr "2015-12-12"; VStr "x"];
      [VInt 4; VNone; VStr "N"];
      [VStr "y"; VStr "1999-99-99"; VStr "z"];
      [VInt 6; VStr "2000-01-01"];
      [VInt 7; VStr "2001-02-02"; VStr "N"; VBool true] ].

Definition doc_header : list hcell := [HStr "foo"; HStr "bar"; HStr "baz"].

(** [dict(name='x_req', field='x', optional=False)] *)
Definition x_req : constraint :=
  {| c_name := Some "x_req"; c_field := Some (FName "x"); c_optional := Some false;
     c_getter := None; c_test := None; c_assertion := None |}.

(** [dict(name='row_chk', test=reject, assertion=lambda v: False)]: no
    field, so its target is the whole row. *)
Definition row_chk : constraint :=
  {| c_name := Some "row_chk"; c_field := None; c_optional := None;
     c_getter := None; c_test := Some reject; c_assertion := Some never |}.

(** ** The constraints argument as an iterable

    [validate] accepts any iterable of dictionaries as [constraints]:
    line 108 only iterates it. Besides None and a list, the argument
    can be a one-shot iterator (a generator, [iter(...)]): an object
    whose remaining items live in the store and are used up by the
    iteration of line 108. *)

Inductive constraints_arg : Type :=
  | NoConstraints
  | ConstraintList (cs : list ref)
  | ConstraintIterator (k : nat).

Record pystore : Type := mkStore {
  st_dicts : list constraint;
  st_iters : list (list ref);
}.

(** Lines 106-160 for each kind of argument. An iterator object is
    truthy at line 107 whatever it has left; line 108 drains it into
    the list of working copies, and from there on [constraints] is that
    list. *)
Definition validate_rows_any (s : pystore) (flds : list string) (arg : constraints_arg)
    (rows : list (list value)) : pystore * outcome :=
  match arg with
  | NoConstraints =>
      let '(h, o) := validate_rows (st_dicts s) flds None rows in
      (mkStore h (st_iters s), o)
  | ConstraintList cs =>
      let '(h, o) := validate_rows (st_dicts s) flds (Some cs) rows in
      (mkStore h (st_iters s), o)
  | ConstraintIterator k =>
      let items := st_iters s !!! k in
      let iters1 := <[k := []]> (st_iters s) in
      let '(h1, rs) := copy_constraints (st_dicts s) items in
      match setup_getters flds h1 rs with
      | (h2, Some e) => (mkStore h2 iters1, mkOutcome [] (Some e))
      | (h2, None) => (mkStore h2 iters1, mkOutcome (scan_rows h2 flds (Some rs) 0 rows) None)
      end
  end.

Definition iterproblems_any (s : pystore) (tbl : table) (arg : constraints_arg)
    (expected_header : option (list hcell)) : pystore * outcome :=
  let '(hdr_events, flds) := check_header (tbl_header tbl) expected_header in
  let '(s', o) := validate_rows_any s flds arg (tbl_rows tbl) in
  (s', mkOutcome (Yield (Header outhdr) :: hdr_events ++ trace o) (raised o)).





(** ** Readings of a report used by the further properties *)

#[global] Instance site_eq_dec : EqDecision site.
Proof. solve_decision. Defined.

(** How often a trace calls a getter. *)
Definition getter_calls (t : list event) : nat :=
  length (filter (fun s => s = Getter) (calls t)).

(** The row-length problems of data rows counted from [i], against a
    field list of [n] names. *)
Fixpoint length_problems (n i : nat) (rows : list (list value)) : list problem :=
  match rows with
  | [] => []
  | row :: rest =>
      (if Nat.eqb (length row) n then [] else [len_problem (i + 1) (length row)])
      ++ length_problems n (S i) rest
  end.

(** The calls of a trace with their arguments. *)
Definition calls_with_args (t : list event) : list (site * value) :=
  omap (fun ev => match ev with Call s a => Some (s, a) | Yield _ => None end) t.

(** Dictionaries on which lines 110-118 cannot raise: a getter of its
    own, no field, a true 'optional', or a single name of the field
    list. *)
Definition compiles (flds : list string) (c : constraint) : Prop :=
  c_getter c <> None \/ c_field c = None \/ c_optional c = Some true
  \/ exists s, c_field c = Some (FName s) /\ s ∈ flds.

(** * Store and loop lemmas *)

Lemma copied_length h cs : length (copied h cs) = length cs.
Proof.
  revert h. induction cs as [|c cs IH]; intros h; simpl; [done|].
  by rewrite IH.
Qed.

Lemma copy_constraints_copied h cs :
  copy_constraints h cs = (h ++ copied h cs, seq (length h) (length cs)).
Proof.
  revert h. induction cs as [|c cs IH]; intros h; simpl.
  - by rewrite app_nil_r.
  - rewrite IH. rewrite length_app. simpl.
    rewrite <- app_assoc. simpl.
    by replace (length h + 1) with (S (length h)) by lia.
Qed.

Lemma copied_live_app h ex cs :
  live h cs -> copied (h ++ ex) cs = map (fun c => h !!! c) cs.
Proof.
  revert ex. induction cs as [|c cs IH]; intros ex Hl; cbn [copied map]; [done|].
  inversion Hl as [|? ? Hc Hcs]; subst.
  rewrite lookup_total_app_l by done.
  rewrite <- app_assoc. by rewrite IH.
Qed.

Lemma copied_live h cs :
  live h cs -> copied h cs = map (fun c => h !!! c) cs.
Proof.
  intros Hl. rewrite <- (app_nil_r h) at 1. by apply copied_live_app.
Qed.

Lemma lookup_total_seq_app (pre ws : list constraint) :
  map (fun r => (pre ++ ws) !!! r) (seq (length pre) (length ws)) = ws.
Proof.
  revert pre. induction ws as [|c ws IH]; intros pre; cbn [length seq map]; [done|].
  rewrite list_lookup_total_middle by done. f_equal.
  specialize (IH (pre ++ [c])).
  rewrite length_app in IH. simpl in IH.
  replace (length pre + 1) with (S (length pre)) in IH by lia.
  by rewrite <- app_assoc in IH.
Qed.

Lemma setup_getters_compile_all flds (pre ws : list constraint) :
  setup_getters flds (pre ++ ws) (seq (length pre) (length ws))
  = (pre ++ fst (compile_all flds ws), snd (compile_all flds ws)).
Proof.
  revert pre. induction ws as [|c ws IH]; intros pre.
  - done.
  - cbn [length seq setup_getters compile_all].
    rewrite list_lookup_total_middle by done.
    destruct (compile_one flds c) as [og|e]; simpl; [|done].
    assert (Hstep : forall c', setup_getters flds (pre ++ c' :: ws) (seq (S (length pre)) (length ws))
              = (pre ++ c' :: fst (compile_all flds ws), snd (compile_all flds ws))).
    { intros c'. specialize (IH (pre ++ [c'])).
      rewrite length_app in IH. simpl in IH.
      replace (length pre + 1) with (S (length pre)) in IH by lia.
      rewrite <- !app_assoc in IH. exact IH. }
    destruct (compile_all flds ws) as [rest' e'] eqn:Hca. simpl in *.
    destruct og as [g|]; simpl.
    + replace (<[length pre := set_getter g c]> (pre ++ c :: ws))
        with (pre ++ set_getter g c :: ws).
      * apply Hstep.
      * replace (length pre) with (length pre + 0) at 1 by lia.
        by rewrite insert_app_r.
    + apply Hstep.
Qed.

Lemma compile_all_length flds ws : length (fst (compile_all flds ws)) = length ws.
Proof.
  induction ws as [|c ws IH]; simpl; [done|].
  destruct (compile_one flds c); simpl; [|done].
  destruct (compile_all flds ws); simpl in *. by rewrite IH.
Qed.

Lemma flat_map_lookup_total {B} (f : constraint -> list B) (pre ws : list constraint) :
  flat_map (fun r => f ((pre ++ ws) !!! r)) (seq (length pre) (length ws)) = flat_map f ws.
Proof.
  transitivity (flat_map f (map (fun r => (pre ++ ws) !!! r) (seq (length pre) (length ws)))).
  - generalize (seq (length pre) (length ws)). intros l.
    induction l as [|r l IH]; cbn [flat_map map]; [done|]. by rewrite IH.
  - by rewrite lookup_total_seq_app.
Qed.

Lemma scan_rows_blocks flds (pre ws : list constraint) i rows :
  ws <> [] ->
  scan_rows (pre ++ ws) flds (Some (seq (length pre) (length ws))) i rows
  = scan_blocks flds ws i rows.
Proof.
  intros Hne. revert i. induction rows as [|row rows IH]; intros i; simpl; [done|].
  rewrite IH. f_equal. unfold check_row, row_block. f_equal.
  destruct ws as [|c ws]; [done|].
  change (nonempty (Some (seq (length pre) (length (c :: ws))))) with true.
  cbv iota. cbn [refs_of].
  apply (flat_map_lookup_total (fun c0 => check_constraint c0 i (mkRecord row flds))).
Qed.

Lemma scan_rows_empty h flds constraints i rows :
  nonempty constraints = false ->
  scan_rows h flds constraints i rows = scan_blocks flds [] i rows.
Proof.
  intros Hn. revert i. induction rows as [|row rows IH]; intros i; simpl; [done|].
  rewrite IH. f_equal. unfold check_row, row_block. by rewrite Hn.
Qed.

(** The pass after the header check, in terms of the contents of the
    store. *)
Lemma validate_rows_eq h flds constraints rows :
  validate_rows h flds constraints rows =
  if nonempty constraints then
    let cw := compile_all flds (copied h (refs_of constraints)) in
    (h ++ fst cw,
     match snd cw with
     | Some e => mkOutcome [] (Some e)
     | None => mkOutcome (scan_blocks flds (fst cw) 0 rows) None
     end)
  else (h, mkOutcome (scan_blocks flds [] 0 rows) None).
Proof.
  unfold validate_rows.
  destruct (nonempty constraints) eqn:Hn.
  - rewrite copy_constraints_copied. cbn [refs_of].
    rewrite <- (copied_length h (refs_of constraints)).
    rewrite setup_getters_compile_all.
    destruct (snd (compile_all flds (copied h (refs_of constraints)))) eqn:He; [done|].
    f_equal. f_equal.
    rewrite <- (compile_all_length flds (copied h (refs_of constraints))).
    apply scan_rows_blocks.
    intros Heq. apply (f_equal length) in Heq.
    rewrite compile_all_length, copied_length in Heq.
    destruct constraints as [[|? ?]|]; simpl in *; done.
  - simpl. f_equal. f_equal. by apply scan_rows_empty.
Qed.

Lemma iterproblems_eq h tbl constraints expected_header :
  iterproblems h tbl constraints expected_header =
  let hf := check_header (tbl_header tbl) expected_header in
  let ho := validate_rows h (snd hf) constraints (tbl_rows tbl) in
  (fst ho, mkOutcome (Yield (Header outhdr) :: fst hf ++ trace (snd ho)) (raised (snd ho))).
Proof.
  unfold iterproblems.
  destruct (check_header (tbl_header tbl) expected_header) as [ev flds].
  cbn [fst snd]. by destruct (validate_rows h flds constraints (tbl_rows tbl)).
Qed.

(** The store after a pass extends the store before it. *)
Lemma validate_rows_store h flds constraints rows :
  exists ws, fst (validate_rows h flds constraints rows) = h ++ ws.
Proof.
  rewrite validate_rows_eq. destruct (nonempty constraints).
  - eexists. reflexivity.
  - exists []. by rewrite app_nil_r.
Qed.

(** A pass whose compile loop ends normally: its trace is the report
    header, the header check, and then, row by row, the length check
    followed by [check_constraint] for each working constraint. *)
Lemma iterproblems_trace h tbl cs expected_header :
  live h cs -> cs <> [] ->
  let flds := snd (check_header (tbl_header tbl) expected_header) in
  let cw := compile_all flds (map (fun r => h !!! r) cs) in
  snd cw = None ->
  trace (snd (iterproblems h tbl (Some cs) expected_header)) =
  Yield (Header outhdr) :: fst (check_header (tbl_header tbl) expected_header)
    ++ scan_blocks flds (fst cw) 0 (tbl_rows tbl).
Proof.
  intros Hl Hne flds cw Hcw. subst flds cw.
  rewrite iterproblems_eq. cbn [snd trace]. rewrite validate_rows_eq.
  destruct cs as [|c cs]; [done|]. cbn [nonempty refs_of snd].
  rewrite copied_live by done. by rewrite Hcw.
Qed.

(** * The end-to-end example *)

(** C1: with expected header ('foo','bar'), the constraint foo_pos
    (field 'foo', assertion v > 0) and the rows (1,'a'), (-1,'b'),
    (2,'c','extra'), a pass yields the report header and then exactly
    two problems: the failed assertion of foo_pos at row 2 with value
    -1, then the row-length problem at row 3 with length 3; nothing for
    foo_pos at row 3. The pass ends normally. *)
Theorem C1_end_to_end_example :
  let o := snd (ProblemsView_iter
                  (validate foo_bar_table (Some [0]) (Some [HStr "foo"; HStr "bar"]))
                  [foo_pos]) in
  emitted o =
    [ Header outhdr;
      Problem (mkProblem (Some "foo_pos") 2 (Some (FName "foo")) (VInt (-1)) "AssertionError");
      Problem (mkProblem (Some "__len__") 3 None (VInt 3) "AssertionError") ]
  /\ raised o = None.
Proof. split; vm_compute; reflexivity. Qed.

(** The table of problems in the docstring of [validate], row for
    row. *)
Example docstring_example :
  problems (snd (ProblemsView_iter
                   (validate doc_table (Some [0; 1; 2; 3]) (Some doc_header))
                   doc_constraints))
  = [ mkProblem (Some "__header__") 0 None VNone "AssertionError";
      mkProblem (Some "foo_int") 2 (Some (FName "foo")) (VStr "x") "ValueError";
      mkProblem (Some "bar_date") 3 (Some (FName "bar")) (VStr "2000/01/01") "ValueError";
      mkProblem (Some "baz_enum") 4 (Some (FName "baz")) (VStr "x") "AssertionError";
      mkProblem (Some "bar_date") 5 (Some (FName "bar")) VNone "AttributeError";
      mkProblem (Some "not_none") 5 None VNone "AssertionError";
      mkProblem (Some "foo_int") 6 (Some (FName "foo")) (VStr "y") "ValueError";
      mkProblem (Some "bar_date") 6 (Some (FName "bar")) (VStr "1999-99-99") "ValueError";
      mkProblem (Some "baz_enum") 6 (Some (FName "baz")) (VStr "z") "AssertionError";
      mkProblem (Some "__len__") 7 None (VInt 2) "AssertionError";
      mkProblem (Some "baz_enum") 7 (Some (FName "baz")) VNone "AssertionError";
      mkProblem (Some "__len__") 8 None (VInt 4) "AssertionError" ].
Proof. vm_compute. reflexivity. Qed.

(** * The header check *)

Lemma check_header_flds actual eh :
  snd (check_header actual (Some eh)) = map text_type eh.
Proof. reflexivity. Qed.

Lemma check_header_match actual eh :
  map text_type eh = map text_type actual ->
  fst (check_header actual (Some eh)) = [].
Proof. intros Heq. cbn. by rewrite bool_decide_eq_true_2. Qed.

Lemma check_header_mismatch actual eh :
  map text_type eh <> map text_type actual ->
  fst (check_header actual (Some eh)) = [Yield (Problem header_problem)].
Proof. intros Hne. cbn. by rewrite bool_decide_eq_false_2. Qed.

(** * Problem records of the row loop *)

Lemma ev_problems_app t1 t2 : ev_problems (t1 ++ t2) = ev_problems t1 ++ ev_problems t2.
Proof. unfold ev_problems, yields, problems_of. by rewrite !omap_app. Qed.

Lemma ev_problems_flat_map {A} (f : A -> list event) (l : list A) :
  ev_problems (flat_map f l) = concat (map (fun x => ev_problems (f x)) l).
Proof.
  induction l as [|x l IH]; cbn [flat_map map concat]; [done|].
  by rewrite ev_problems_app, IH.
Qed.

Lemma check_len_problems n i row :
  ev_problems (check_len n i row) = []
  \/ ev_problems (check_len n i row) = [len_problem (i + 1) (length row)].
Proof. unfold check_len. destruct (Nat.eqb (length row) n); [by left | by right]. Qed.

(** Every problem one constraint raises on one row carries the row's
    index and the constraint's name and field. *)
Lemma check_constraint_problems c i row :
  Forall (fun p => p_row p = i + 1 /\ p_name p = c_name c /\ p_field p = c_field c)
         (ev_problems (check_constraint c i row)).
Proof.
  unfold check_constraint, run_test, run_assertion.
  destruct (getter_of c row) as [target|e]; [|by repeat constructor].
  destruct (c_test c) as [t|], (c_assertion c) as [a|]; cbn;
    repeat match goal with
           | |- context [match ?f target with _ => _ end] => destruct (f target); cbn
           | |- context [if truthy ?v then _ else _] => destruct (truthy v); cbn
           end;
    by repeat constructor.
Qed.

Lemma row_block_rows flds ws i row :
  Forall (fun p => p_row p = i + 1) (ev_problems (row_block flds ws i row)).
Proof.
  unfold row_block. rewrite ev_problems_app. apply Forall_app. split.
  - destruct (check_len_problems (length flds) i row) as [-> | ->]; by repeat constructor.
  - rewrite ev_problems_flat_map. apply Forall_concat, Forall_fmap, Forall_forall.
    intros c _. cbn. eapply Forall_impl; [apply check_constraint_problems|].
    by intros p (? & _).
Qed.

Lemma scan_blocks_rows flds ws i rows :
  Forall (fun p => i + 1 <= p_row p) (ev_problems (scan_blocks flds ws i rows)).
Proof.
  revert i. induction rows as [|row rows IH]; intros i; cbn [scan_blocks]; [constructor|].
  rewrite ev_problems_app. apply Forall_app. split.
  - eapply Forall_impl; [apply row_block_rows|]. cbn. lia.
  - eapply Forall_impl; [apply IH|]. cbn. lia.
Qed.

Lemma scan_blocks_sorted flds ws i rows :
  StronglySorted le (map p_row (ev_problems (scan_blocks flds ws i rows))).
Proof.
  revert i. induction rows as [|row rows IH]; intros i; cbn [scan_blocks]; [constructor|].
  rewrite ev_problems_app, map_app. apply StronglySorted_app_2; [| |apply IH].
  - intros x1 x2 H1 H2.
    apply list_elem_of_fmap in H1 as (p1 & -> & H1).
    apply list_elem_of_fmap in H2 as (p2 & -> & H2).
    pose proof (row_block_rows flds ws i row) as Hb.
    pose proof (scan_blocks_rows flds ws (S i) rows) as Hs.
    rewrite Forall_forall in Hb, Hs.
    specialize (Hb _ H1). specialize (Hs _ H2). cbn in *. lia.
  - pose proof (row_block_rows flds ws i row) as Hb.
    induction Hb as [|p l Hp Hl IHl]; cbn; constructor; [done|].
    apply Forall_fmap. eapply Forall_impl; [exact Hl|]. cbn. lia.
Qed.

(** What the part of a pass after the header check yields lies at row
    indices from 1 on. *)
Lemma validate_rows_rows h flds constraints rows :
  Forall (fun p => 1 <= p_row p) (problems (snd (validate_rows h flds constraints rows))).
Proof.
  rewrite validate_rows_eq.
  destruct (nonempty constraints); cbn [snd].
  - destruct (snd (compile_all flds (copied h (refs_of constraints)))); [constructor|].
    apply (scan_blocks_rows flds _ 0).
  - apply (scan_blocks_rows flds _ 0).
Qed.

Lemma iterproblems_problems h tbl constraints expected_header :
  problems (snd (iterproblems h tbl constraints expected_header)) =
  ev_problems (fst (check_header (tbl_header tbl) expected_header)) ++
  problems (snd (validate_rows h (snd (check_header (tbl_header tbl) expected_header))
                   constraints (tbl_rows tbl))).
Proof.
  rewrite iterproblems_eq. cbn [snd fst]. unfold problems, emitted. cbn [trace].
  change (Yield (Header outhdr) :: ?t) with ([Yield (Header outhdr)] ++ t).
  fold (ev_problems ([Yield (Header outhdr)] ++
          fst (check_header (tbl_header tbl) expected_header) ++
          trace (snd (validate_rows h (snd (check_header (tbl_header tbl) expected_header))
                        constraints (tbl_rows tbl))))).
  by rewrite !ev_problems_app.
Qed.

(** C2, as the code has it: when the supplied expected header differs,
    after string normalization, from the table's actual header, the
    pass yields the report header, then the header problem
    ('__header__', 0, None, None, 'AssertionError') as its first
    problem, then what the rest of the pass yields with the normalized
    expected header as the field list; every later problem has a row
    index of at least 1, so the header problem is the only one at index
    0. The error column holds the class name of the failed assert, not
    'HeaderMismatch'. *)
Theorem C2_header_mismatch h tbl constraints eh :
  map text_type eh <> map text_type (tbl_header tbl) ->
  let o := snd (iterproblems h tbl constraints (Some eh)) in
  let rest := snd (validate_rows h (map text_type eh) constraints (tbl_rows tbl)) in
  emitted o = Header outhdr :: Problem header_problem :: emitted rest
  /\ problems o = header_problem :: problems rest
  /\ Forall (fun p => 1 <= p_row p) (problems rest)
  /\ raised o = raised rest.
Proof.
  intros Hne o rest. subst o rest.
  pose proof (check_header_mismatch _ _ Hne) as Hh.
  split; [|split; [|split]].
  - rewrite iterproblems_eq. cbn [snd]. rewrite Hh. reflexivity.
  - rewrite iterproblems_problems, Hh. reflexivity.
  - apply validate_rows_rows.
  - rewrite iterproblems_eq. reflexivity.
Qed.

Lemma C2_header_mismatch_witness :
  map text_type [HStr "a"; HStr "b"] <> map text_type (tbl_header a_c_table)
  /\ emitted (snd (iterproblems [] a_c_table None (Some [HStr "a"; HStr "b"])))
     = [Header outhdr; Problem header_problem].
Proof.
  assert (Hne : map text_type [HStr "a"; HStr "b"] <> map text_type (tbl_header a_c_table))
    by (vm_compute; discriminate).
  split; [exact Hne|].
  destruct (C2_header_mismatch [] a_c_table None [HStr "a"; HStr "b"] Hne) as (He & _).
  rewrite He. reflexivity.
Defined.

(** C2 as stated fails: with expected header ('a','b') and actual
    header ('a','c') the headers differ, and no record
    ('__header__', 0, None, None, 'HeaderMismatch') is yielded. *)
Lemma C2_counterexample :
  map text_type [HStr "a"; HStr "b"] <> map text_type (tbl_header a_c_table)
  /\ ~ In (Problem (mkProblem (Some "__header__") 0 None VNone "HeaderMismatch"))
          (emitted (snd (iterproblems [] a_c_table None (Some [HStr "a"; HStr "b"])))).
Proof.
  split; [vm_compute; discriminate|].
  vm_compute. intros [H|[H|[]]]; discriminate H.
Qed.

(** With an expected header the field list is the normalized expected
    header also when the comparison passes; then no header problem is
    yielded. *)
Lemma iterproblems_header_match h tbl constraints eh :
  map text_type eh = map text_type (tbl_header tbl) ->
  emitted (snd (iterproblems h tbl constraints (Some eh)))
  = Header outhdr :: emitted (snd (validate_rows h (map text_type eh) constraints (tbl_rows tbl))).
Proof.
  intros Heq. rewrite iterproblems_eq. cbn [snd].
  by rewrite (check_header_match _ _ Heq).
Qed.

(** * Optional constraints *)

(** An optional constraint whose single field is absent is passed
    over by the compile loop: no getter is attached. *)
Lemma compile_one_optional_absent flds c s :
  c_getter c = None -> c_field c = Some (FName s) -> c_optional c = Some true ->
  s ∉ flds ->
  compile_one flds c = Ok None.
Proof.
  intros Hg Hf Ho Hs. unfold compile_one. rewrite Hg, Hf, Ho. cbn.
  by rewrite bool_decide_eq_false_2.
Qed.

(** C3 fails on the code: the constraint x_chk (field 'x', optional,
    assertion always false) on the table with header ('a','c'), where
    'x' is absent, is passed over by the compile loop only; the row
    loop still applies it, with the whole row as its target, and it
    yields a problem for the data row. *)
Theorem C3_optional_absent_still_evaluated :
  let o := snd (iterproblems [x_chk] a_c_table (Some [0]) None) in
  emitted o =
    [ Header outhdr;
      Problem (mkProblem (Some "x_chk") 1 (Some (FName "x"))
                 (VRecord [VInt 1; VInt 2] ["a"; "c"]) "AssertionError") ]
  /\ calls (trace o) = [Getter; Assertion]
  /\ raised o = None.
Proof. repeat split; vm_compute; reflexivity. Qed.

(** * One constraint against one row *)

(** C4, as the code has it: for a constraint with both a test and an
    assertion, on a row where extraction succeeds, the test raises and
    the assertion fails (raises, or returns a falsy value), exactly two
    problems are yielded for that row and constraint: first the one
    from the test, whose error column is the class name of what the
    test raised, then the one from the assertion, whose error column is
    the class name of what the assertion raised or 'AssertionError' for
    a falsy result; both carry the same value, which is the extracted
    target when the constraint has a non-empty field and None
    otherwise. Both callables are invoked, the test first. *)
Theorem C4_test_and_assertion_both_fail c i row target test assertion e_test e_assert :
  getter_of c row = Ok target ->
  c_test c = Some test -> test target = Raise e_test ->
  c_assertion c = Some assertion -> assertion_failure (assertion target) = Some e_assert ->
  exists v,
    yields (check_constraint c i row) =
      [ Problem (mkProblem (c_name c) (i + 1) (c_field c) v e_test);
        Problem (mkProblem (c_name c) (i + 1) (c_field c) v e_assert) ]
    /\ v = (if field_truthy (c_field c) then target else VNone)
    /\ (field_truthy (c_field c) = true -> v = target)
    /\ calls (check_constraint c i row) = [Getter; Test; Assertion].
Proof.
  intros Hg Ht Htr Ha Haf.
  exists (if field_truthy (c_field c) then target else VNone).
  unfold check_constraint, run_test, run_assertion.
  rewrite Hg, Ht, Ha, Htr. unfold assertion_failure in Haf.
  split; [|split; [done|split]].
  - destruct (assertion target) as [r|e]; cbn.
    + destruct (truthy r); [done|]. by inversion Haf.
    + by inversion Haf.
  - by intros ->.
  - destruct (assertion target) as [r|e]; cbn; [by destruct (truthy r)|done].
Qed.

Lemma C4_test_and_assertion_both_fail_witness :
  yields (check_constraint (attach (Some (fun r => Ok (Record_getitem r 0))) both_fail) 0
            (mkRecord [VInt 7; VStr "a"] ["foo"; "bar"]))
  = [ Problem (mkProblem (Some "both") 1 (Some (FName "foo")) (VInt 7) "ValueError");
      Problem (mkProblem (Some "both") 1 (Some (FName "foo")) (VInt 7) "AssertionError") ].
Proof.
  destruct (C4_test_and_assertion_both_fail
              (attach (Some (fun r => Ok (Record_getitem r 0))) both_fail) 0
              (mkRecord [VInt 7; VStr "a"] ["foo"; "bar"])
              (VInt 7) reject never "ValueError" "AssertionError"
              eq_refl eq_refl eq_refl eq_refl eq_refl) as (v & Hy & Hv & _).
  rewrite Hy, Hv. reflexivity.
Defined.

(** C4 as stated fails: the constraint row_chk has no field, its test
    raises ValueError and its assertion returns False on the extracted
    target, the whole row. The two problems carry None, not the
    extracted target, and their error columns are 'ValueError' and
    'AssertionError', not the kinds 'TestFailure' and
    'AssertionFailure'. *)
Lemma C4_counterexample :
  getter_of row_chk (mkRecord [VInt 7] ["foo"]) = Ok (VRecord [VInt 7] ["foo"])
  /\ c_test row_chk = Some reject
  /\ reject (VRecord [VInt 7] ["foo"]) = Raise "ValueError"
  /\ c_assertion row_chk = Some never
  /\ assertion_failure (never (VRecord [VInt 7] ["foo"])) = Some "AssertionError"
  /\ yields (check_constraint row_chk 0 (mkRecord [VInt 7] ["foo"])) =
       [ Problem (mkProblem (Some "row_chk") 1 None VNone "ValueError");
         Problem (mkProblem (Some "row_chk") 1 None VNone "AssertionError") ]
  /\ Forall (fun p => p_value p <> VRecord [VInt 7] ["foo"]
                      /\ p_error p <> "TestFailure" /\ p_error p <> "AssertionFailure")
            (ev_problems (check_constraint row_chk 0 (mkRecord [VInt 7] ["foo"]))).
Proof.
  repeat split; try reflexivity.
  vm_compute. repeat constructor; discriminate.
Qed.

(** C5: when a constraint's getter fails on a row, exactly one problem
    is yielded for that row and constraint, carrying the constraint's
    name, the row index, the constraint's field (or None), the value
    None and the class name of the failure; the getter is the only
    callable invoked: neither the test nor the assertion is. *)
Theorem C5_extraction_failure c i row e :
  getter_of c row = Raise e ->
  yields (check_constraint c i row) =
    [ Problem (mkProblem (c_name c) (i + 1) (c_field c) VNone e) ]
  /\ calls (check_constraint c i row) = [Getter].
Proof.
  intros Hg. unfold check_constraint. rewrite Hg. by split.
Qed.

Lemma C5_extraction_failure_witness :
  yields (check_constraint bad_getter 4 (mkRecord [VInt 7] ["foo"]))
  = [ Problem (mkProblem (Some "lookup") 5 None VNone "KeyError") ]
  /\ calls (check_constraint bad_getter 4 (mkRecord [VInt 7] ["foo"])) = [Getter].
Proof.
  exact (C5_extraction_failure bad_getter 4 (mkRecord [VInt 7] ["foo"]) "KeyError" eq_refl).
Defined.

(** * Compiled getters *)

Lemma index_of_lookup flds s i : index_of flds s = Some i -> flds !! i = Some s.
Proof.
  revert i. induction flds as [|f flds IH]; intros i; cbn [index_of]; [done|].
  destruct (String.eqb f s) eqn:Heq.
  - intros [= <-]. apply String.eqb_eq in Heq. by subst.
  - destruct (index_of flds s) as [j|]; cbn; [|done].
    intros [= <-]. by apply IH.
Qed.

Lemma index_of_absent flds s : s ∉ flds -> index_of flds s = None.
Proof.
  induction flds as [|f flds IH]; intros Hs; cbn [index_of]; [done|].
  apply not_elem_of_cons in Hs as [Hne Hs].
  destruct (String.eqb f s) eqn:Heq.
  - apply String.eqb_eq in Heq. by subst.
  - by rewrite IH.
Qed.

Lemma resolve_names_lookup flds names idx :
  resolve_names flds names = Ok idx ->
  Forall2 (fun s i => flds !! i = Some s) names idx.
Proof.
  revert idx. induction names as [|s names IH]; intros idx; cbn [resolve_names].
  - intros [= <-]. constructor.
  - destruct (index_of flds s) as [i|] eqn:Hi; [|done].
    destruct (resolve_names flds names) as [is_|e]; [|done].
    intros [= <-]. constructor; [by apply index_of_lookup | by apply IH].
Qed.

(** A single name present in the field list: the getter selects the
    value at its position. *)
Lemma make_getter_single flds s i :
  index_of flds s = Some i ->
  exists g, make_getter flds (FName s) = Ok g /\ forall r, g r = Ok (Record_getitem r i).
Proof.
  intros Hi. unfold make_getter, asindices. cbn. rewrite Hi. cbn. by eexists.
Qed.

(** Several names, all present: the getter selects the tuple of the
    values at their positions, in the order of the names. *)
Lemma make_getter_several flds names idx :
  resolve_names flds names = Ok idx -> 2 <= length names ->
  exists g, make_getter flds (FNames names) = Ok g
            /\ forall r, g r = Ok (VTuple (map (Record_getitem r) idx)).
Proof.
  intros Hr Hlen. unfold make_getter, asindices. cbn [spec_names]. rewrite Hr.
  pose proof (Forall2_length _ _ _ (resolve_names_lookup _ _ _ Hr)) as Hl.
  destruct idx as [|i [|j idx]]; cbn in Hl; [lia..|].
  cbn. by eexists.
Qed.

(** The compile loop reaches [make_getter] for a collection of names
    only when the dictionary has an 'optional' key with a false value. *)
Lemma compile_one_several flds c names :
  c_getter c = None -> c_field c = Some (FNames names) ->
  compile_one flds c =
    match c_optional c with
    | None => Raise "KeyError"
    | Some true => Ok None
    | Some false =>
        match make_getter flds (FNames names) with
        | Ok g => Ok (Some g)
        | Raise e => Raise e
        end
    end.
Proof. intros Hg Hf. unfold compile_one. by rewrite Hg, Hf. Qed.

(** A single name absent from the field list, not marked optional:
    compilation raises. *)
Lemma compile_one_absent flds c s :
  c_getter c = None -> c_field c = Some (FName s) -> s ∉ flds ->
  compile_one flds c =
    match c_optional c with
    | None => Raise "KeyError"
    | Some true => Ok None
    | Some false => Raise "FieldSelectionError"
    end.
Proof.
  intros Hg Hf Hs. unfold compile_one. rewrite Hg, Hf. cbn.
  rewrite bool_decide_eq_false_2 by done. cbn.
  destruct (c_optional c) as [[|]|]; [done| |done].
  unfold make_getter, asindices. cbn. by rewrite index_of_absent.
Qed.

(** C7 fails on the code: the constraint foo_bar (field
    ('foo','bar'), no 'optional' key) on a table whose header has both
    'foo' and 'bar' gets no tuple getter; the compile loop raises
    KeyError, and the pass ends after the report header. *)
Theorem C7_several_names_default_raises :
  snd (iterproblems [foo_bar_pair] foo_bar_table (Some [0]) None)
  = mkOutcome [Yield (Header outhdr)] (Some "KeyError").
Proof. vm_compute. reflexivity. Qed.

(** * The caller's constraint objects *)

(** C8: the store after a pass holds, in the cells of the caller's
    objects, what it held before: the pass writes to its own copies
    only. This holds whether the pass ends normally or by an
    exception. *)
Theorem C8_caller_constraints_unchanged h tbl constraints expected_header :
  take (length h) (fst (iterproblems h tbl constraints expected_header)) = h.
Proof.
  rewrite iterproblems_eq. cbn [fst].
  destruct (validate_rows_store h
              (snd (check_header (tbl_header tbl) expected_header))
              constraints (tbl_rows tbl)) as [ws ->].
  apply take_app_length.
Qed.

(** * Iterating a view twice *)




(** On a list or on None the pass over an arbitrary argument is the
    pass of [iterproblems]. *)
Lemma iterproblems_any_list s tbl cs expected_header :
  snd (iterproblems_any s tbl (ConstraintList cs) expected_header)
  = snd (iterproblems (st_dicts s) tbl (Some cs) expected_header)
  /\ snd (iterproblems_any s tbl NoConstraints expected_header)
     = snd (iterproblems (st_dicts s) tbl None expected_header).
Proof.
  unfold iterproblems_any, iterproblems, validate_rows_any.
  destruct (check_header (tbl_header tbl) expected_header) as [ev flds].
  split.
  - by destruct (validate_rows (st_dicts s) flds (Some cs) (tbl_rows tbl)).
  - by destruct (validate_rows (st_dicts s) flds None (tbl_rows tbl)).
Qed.


(** * Compilation cut short *)

Lemma check_header_events actual expected_header :
  fst (check_header actual expected_header) = []
  \/ fst (check_header actual expected_header) = [Yield (Problem header_problem)].
Proof.
  destruct expected_header as [eh|]; cbn; [|by left].
  destruct (bool_decide _); [by left | by right].
Qed.

Lemma compile_all_app flds pre rest :
  snd (compile_all flds (pre ++ rest)) =
  match snd (compile_all flds pre) with
  | Some e => Some e
  | None => snd (compile_all flds rest)
  end.
Proof.
  induction pre as [|c pre IH]; cbn [app compile_all]; [done|].
  destruct (compile_one flds c) as [og|e]; [|done].
  destruct (compile_all flds (pre ++ rest)) as [r1 e1].
  destruct (compile_all flds pre) as [r2 e2]. cbn in *. exact IH.
Qed.

(** A dictionary without getter and without 'optional' key whose
    field is not an element of the field list: line 112 raises. *)
Lemma compile_one_key_error flds c f :
  c_getter c = None -> c_field c = Some f -> c_optional c = None ->
  field_in_flds f flds = false ->
  compile_one flds c = Raise "KeyError".
Proof. intros Hg Hf Ho Hin. unfold compile_one. by rewrite Hg, Hf, Hin, Ho. Qed.

(** A collection of names is never an element of the field list. *)
Lemma field_in_flds_several names flds : field_in_flds (FNames names) flds = false.
Proof. reflexivity. Qed.

(** C10, as the code has it: if a listed constraint has no getter of
    its own, has a field but no 'optional' key, and its field value is
    not an element of the field list (as is every collection of names),
    the pass ends by an exception raised in the compile loop, having
    yielded the report header and at most the header problem: no
    row-level record, and no call of a getter, test or assertion. The
    exception is KeyError when the constraints listed before compile
    without error. *)
Theorem C10_missing_optional_key h tbl cs expected_header pre c post f :
  live h cs ->
  map (fun r => h !!! r) cs = pre ++ c :: post ->
  c_getter c = None -> c_field c = Some f -> c_optional c = None ->
  field_in_flds f (snd (check_header (tbl_header tbl) expected_header)) = false ->
  let o := snd (iterproblems h tbl (Some cs) expected_header) in
  exists e,
    raised o = Some e
    /\ (snd (compile_all (snd (check_header (tbl_header tbl) expected_header)) pre) = None ->
        e = "KeyError")
    /\ Forall (fun p => p_row p = 0) (problems o)
    /\ calls (trace o) = [].
Proof.
  intros Hl Hcs Hg Hf Ho Hin o. subst o.
  set (flds := snd (check_header (tbl_header tbl) expected_header)) in *.
  assert (Hne : nonempty (Some cs) = true).
  { destruct cs; [|done]. by destruct pre. }
  assert (Hsnd : snd (compile_all flds (copied h cs)) =
                 match snd (compile_all flds pre) with
                 | Some e => Some e
                 | None => Some "KeyError"
                 end).
  { rewrite copied_live, Hcs, compile_all_app by done.
    destruct (snd (compile_all flds pre)); [done|].
    cbn [compile_all]. by rewrite (compile_one_key_error flds c f). }
  assert (Hv : exists e, snd (validate_rows h flds (Some cs) (tbl_rows tbl)) = mkOutcome [] (Some e)
                /\ (snd (compile_all flds pre) = None -> e = "KeyError")).
  { rewrite validate_rows_eq, Hne. cbn [snd refs_of]. rewrite Hsnd.
    destruct (snd (compile_all flds pre)) as [e|]; eexists; split; done. }
  destruct Hv as (e & Hv & He). exists e.
  split; [|split; [done|split]].
  - rewrite iterproblems_eq. cbn [snd raised]. fold flds. by rewrite Hv.
  - rewrite iterproblems_problems. fold flds. rewrite Hv.
    destruct (check_header_events (tbl_header tbl) expected_header) as [-> | ->];
      by repeat constructor.
  - rewrite iterproblems_eq. cbn [snd trace]. fold flds. rewrite Hv.
    destruct (check_header_events (tbl_header tbl) expected_header) as [-> | ->]; done.
Qed.

Lemma C10_missing_optional_key_witness :
  raised (snd (iterproblems [foo_bar_pair] foo_bar_table (Some [0]) None)) = Some "KeyError".
Proof.
  assert (Hl : live [foo_bar_pair] [0]) by (repeat constructor).
  destruct (C10_missing_optional_key [foo_bar_pair] foo_bar_table [0] None
              [] foo_bar_pair [] (FNames ["foo"; "bar"])
              Hl eq_refl eq_refl eq_refl eq_refl eq_refl) as (e & Hr & He & _).
  rewrite Hr, (He eq_refl). reflexivity.
Defined.

(** C10 as stated fails: the constraint x_first has a field 'x' that
    is not in the header ('foo','bar') and no 'optional' key, but
    brings its own getter; line 110 then skips lines 111-118, no
    KeyError is raised, and the pass yields a row-level problem. *)
Lemma C10_counterexample :
  c_field x_first = Some (FName "x") /\ c_optional x_first = None
  /\ field_in_flds (FName "x") (map text_type (tbl_header foo_bar_table)) = false
  /\ raised (snd (iterproblems [x_first] foo_bar_table (Some [0]) None)) = None
  /\ problems (snd (iterproblems [x_first] foo_bar_table (Some [0]) None)) =
       [ mkProblem (Some "x_first") 2 (Some (FName "x")) (VInt (-1)) "AssertionError";
         len_problem 3 3 ].
Proof. repeat split; vm_compute; reflexivity. Qed.

(** * The order of the report *)

Lemma block_list_concat flds ws i rows :
  ev_problems (scan_blocks flds ws i rows) = concat (block_list flds ws i rows).
Proof.
  revert i. induction rows as [|row rows IH]; intros i; cbn [scan_blocks block_list concat].
  - done.
  - by rewrite ev_problems_app, IH.
Qed.

Lemma block_list_length flds ws i rows : length (block_list flds ws i rows) = length rows.
Proof.
  revert i. induction rows as [|row rows IH]; intros i; cbn [block_list length]; [done|].
  by rewrite IH.
Qed.

Lemma block_list_lookup flds ws i rows k block :
  block_list flds ws i rows !! k = Some block ->
  exists row, rows !! k = Some row /\ block = ev_problems (row_block flds ws (i + k) row).
Proof.
  revert i k. induction rows as [|row rows IH]; intros i k; cbn [block_list]; [done|].
  destruct k as [|k]; cbn.
  - intros [= <-]. exists row. by rewrite Nat.add_0_r.
  - intros Hk. destruct (IH (S i) k Hk) as (row' & Hr & ->).
    exists row'. split; [done|]. by replace (i + S k) with (S i + k) by lia.
Qed.

(** Attaching a getter changes neither the name nor the field. *)
Lemma compile_all_names flds ws :
  Forall2 (fun c c' => c_name c' = c_name c /\ c_field c' = c_field c)
          ws (fst (compile_all flds ws)).
Proof.
  induction ws as [|c ws IH]; cbn [compile_all]; [constructor|].
  destruct (compile_one flds c) as [og|e].
  - destruct (compile_all flds ws) as [rest' e']. cbn [fst] in *.
    constructor; [by destruct og | exact IH].
  - cbn [fst]. apply Forall_Forall2_diag, Forall_forall. done.
Qed.

(** The problems of one row: the row-length problem, if any, then the
    problems of each working constraint, in list order. *)
Lemma row_block_parts flds ws k row :
  exists lenp parts,
    ev_problems (row_block flds ws k row) = lenp ++ concat parts
    /\ (lenp = [] \/ exists n, lenp = [len_problem (k + 1) n])
    /\ Forall2 (fun c part =>
                  Forall (fun p => p_row p = k + 1 /\ p_name p = c_name c
                                   /\ p_field p = c_field c) part)
               ws parts.
Proof.
  exists (ev_problems (check_len (length flds) k row)),
         (map (fun c => ev_problems (check_constraint c k (mkRecord row flds))) ws).
  split; [|split].
  - unfold row_block. by rewrite ev_problems_app, ev_problems_flat_map.
  - destruct (check_len_problems (length flds) k row) as [-> | ->]; [by left|].
    right. by eexists.
  - apply Forall2_fmap_r, Forall_Forall2_diag, Forall_forall.
    intros c _. apply check_constraint_problems.
Qed.

(** C6: the problems of a pass are in ascending order of row index.
    They consist of the header problem, if any (at index 0), followed
    by one block per data row, in row order; when the pass ends
    normally there is a block for every row. The block of the row with
    index k+1 is the row-length problem, if any, followed by one group
    of problems per declared constraint, in declaration order, each
    problem carrying index k+1 and its constraint's name and field. *)
Theorem C6_emission_order h tbl constraints expected_header :
  live h (refs_of constraints) ->
  let o := snd (iterproblems h tbl constraints expected_header) in
  let declared := map (fun r => h !!! r) (refs_of constraints) in
  StronglySorted le (map p_row (problems o))
  /\ exists hdr blocks,
       problems o = hdr ++ concat blocks
       /\ (hdr = [] \/ hdr = [header_problem])
       /\ (raised o = None -> length blocks = length (tbl_rows tbl))
       /\ forall k block, blocks !! k = Some block ->
            exists lenp parts,
              block = lenp ++ concat parts
              /\ (lenp = [] \/ exists n, lenp = [len_problem (k + 1) n])
              /\ Forall2 (fun c part =>
                            Forall (fun p => p_row p = k + 1 /\ p_name p = c_name c
                                             /\ p_field p = c_field c) part)
                         declared parts.
Proof.
  intros Hl o declared. subst o declared.
  set (flds := snd (check_header (tbl_header tbl) expected_header)).
  set (ws := map (fun r => h !!! r) (refs_of constraints)).
  assert (Hhdr : ev_problems (fst (check_header (tbl_header tbl) expected_header)) = []
                 \/ ev_problems (fst (check_header (tbl_header tbl) expected_header))
                    = [header_problem]).
  { destruct (check_header_events (tbl_header tbl) expected_header) as [-> | ->];
      [by left | by right]. }
  (* the working constraints of the row loop *)
  assert (Hbody : exists ws',
            Forall2 (fun c c' => c_name c' = c_name c /\ c_field c' = c_field c) ws ws'
            /\ ((raised (snd (validate_rows h flds constraints (tbl_rows tbl))) = None
                 /\ problems (snd (validate_rows h flds constraints (tbl_rows tbl)))
                    = ev_problems (scan_blocks flds ws' 0 (tbl_rows tbl)))
                \/ (raised (snd (validate_rows h flds constraints (tbl_rows tbl))) <> None
                    /\ problems (snd (validate_rows h flds constraints (tbl_rows tbl))) = []))).
  { rewrite validate_rows_eq. destruct (nonempty constraints) eqn:Hn; cbn [snd].
    - rewrite copied_live by done. fold ws.
      exists (fst (compile_all flds ws)). split; [apply compile_all_names|].
      destruct (snd (compile_all flds ws)); [right | left]; done.
    - exists []. split; [|by left].
      subst ws. destruct constraints as [[|? ?]|]; [constructor|done|constructor]. }
  destruct Hbody as (ws' & Hnames & Hcases).
  assert (Hraised : raised (snd (iterproblems h tbl constraints expected_header))
                    = raised (snd (validate_rows h flds constraints (tbl_rows tbl))))
    by (by rewrite iterproblems_eq).
  rewrite Hraised, iterproblems_problems. fold flds.
  split.
  - rewrite map_app. apply StronglySorted_app_2.
    + intros x1 x2 H1 _. destruct Hhdr as [Hh | Hh]; rewrite Hh in H1; [by inversion H1|].
      apply list_elem_of_singleton in H1 as ->. cbn. lia.
    + destruct Hhdr as [-> | ->]; repeat constructor.
    + destruct Hcases as [[_ ->] | [_ ->]]; [apply scan_blocks_sorted | constructor].
  - exists (ev_problems (fst (check_header (tbl_header tbl) expected_header))).
    destruct Hcases as [[Hr ->] | [Hr ->]].
    + exists (block_list flds ws' 0 (tbl_rows tbl)).
      split; [by rewrite block_list_concat|]. split; [done|].
      split; [intros _; apply block_list_length|].
      intros k block Hk.
      destruct (block_list_lookup _ _ _ _ _ _ Hk) as (row & _ & ->). cbn [Nat.add].
      destruct (row_block_parts flds ws' k row) as (lenp & parts & Heq & Hlen & Hparts).
      exists lenp, parts. split; [done|]. split; [done|].
      clear -Hnames Hparts. revert parts Hparts.
      induction Hnames as [|c c' l l' (Hn & Hf) _ IH]; intros parts Hparts.
      * inversion Hparts. constructor.
      * inversion Hparts as [|? part ? parts' Hp Hps]; subst.
        constructor; [|by apply IH].
        eapply Forall_impl; [exact Hp|]. cbn. intros p (? & ? & ?).
        by rewrite <- Hn, <- Hf.
    + exists []. split; [done|]. split; [done|]. split; [done|].
      intros k block Hk. by rewrite lookup_nil in Hk.
Qed.

Lemma C6_emission_order_witness :
  live [foo_pos] (refs_of (Some [0]))
  /\ StronglySorted le
       (map p_row (problems (snd (iterproblems [foo_pos] foo_bar_table (Some [0])
                                    (Some [HStr "foo"; HStr "bar"]))))).
Proof.
  assert (Hl : live [foo_pos] (refs_of (Some [0]))) by (repeat constructor).
  split; [exact Hl|].
  exact (proj1 (C6_emission_order [foo_pos] foo_bar_table (Some [0])
                  (Some [HStr "foo"; HStr "bar"]) Hl)).
Defined.

(** * Further properties of a pass *)

(** The outcome of a pass in terms of the contents of the working
    copies; an empty or absent constraint list has none. *)
Lemma iterproblems_outcome h tbl constraints expected_header :
  snd (iterproblems h tbl constraints expected_header) =
  let hf := check_header (tbl_header tbl) expected_header in
  let cw := compile_all (snd hf) (copied h (refs_of constraints)) in
  mkOutcome (Yield (Header outhdr) :: fst hf ++
               match snd cw with
               | Some _ => []
               | None => scan_blocks (snd hf) (fst cw) 0 (tbl_rows tbl)
               end)
            (snd cw).
Proof.
  rewrite iterproblems_eq. cbn [snd]. rewrite validate_rows_eq.
  destruct (nonempty constraints) eqn:Hn; cbn [snd].
  - by destruct (snd (compile_all _ _)).
  - by destruct constraints as [[|? ?]|].
Qed.

Lemma calls_app t1 t2 : calls (t1 ++ t2) = calls t1 ++ calls t2.
Proof. unfold calls. by rewrite omap_app. Qed.

Lemma check_header_calls actual expected_header :
  calls (fst (check_header actual expected_header)) = [].
Proof. by destruct (check_header_events actual expected_header) as [-> | ->]. Qed.

Lemma check_header_rows actual expected_header :
  Forall (fun p => p_row p = 0) (ev_problems (fst (check_header actual expected_header))).
Proof.
  destruct (check_header_events actual expected_header) as [-> | ->]; by repeat constructor.
Qed.

(** ** Structural validation *)

Lemma scan_blocks_no_constraints flds i rows :
  ev_problems (scan_blocks flds [] i rows) = length_problems (length flds) i rows
  /\ calls (scan_blocks flds [] i rows) = [].
Proof.
  revert i. induction rows as [|row rows IH]; intros i; cbn [scan_blocks length_problems];
    [done|].
  destruct (IH (S i)) as [IHp IHc].
  rewrite ev_problems_app, calls_app, IHp, IHc.
  unfold row_block, check_len. cbn [flat_map]. rewrite app_nil_r.
  by destruct (Nat.eqb (length row) (length flds)).
Qed.

(** Without constraints (none, or an empty list) a pass reports the
    header problem, if any, and then one row-length problem for each
    data row whose length differs from the number of fields, in row
    order, with the row's index and its actual length; it calls
    nothing and ends normally. *)
Theorem structural_only_report h tbl constraints expected_header :
  nonempty constraints = false ->
  let o := snd (iterproblems h tbl constraints expected_header) in
  let hf := check_header (tbl_header tbl) expected_header in
  problems o = ev_problems (fst hf) ++ length_problems (length (snd hf)) 0 (tbl_rows tbl)
  /\ calls (trace o) = []
  /\ raised o = None.
Proof.
  intros Hn o hf. subst o hf. rewrite iterproblems_problems, iterproblems_outcome.
  assert (Hr : refs_of constraints = []) by (by destruct constraints as [[|? ?]|]).
  rewrite Hr. cbn [copied compile_all fst snd trace raised].
  rewrite validate_rows_eq, Hn. cbn [snd].
  destruct (scan_blocks_no_constraints
              (snd (check_header (tbl_header tbl) expected_header)) 0 (tbl_rows tbl))
    as [Hp Hc].
  split; [|split; [|done]].
  - unfold problems, emitted. cbn [trace]. fold (ev_problems
      (scan_blocks (snd (check_header (tbl_header tbl) expected_header)) [] 0 (tbl_rows tbl))).
    by rewrite Hp.
  - change (Yield (Header outhdr) :: ?t) with ([Yield (Header outhdr)] ++ t).
    by rewrite !calls_app, check_header_calls, Hc.
Qed.

Lemma structural_only_report_witness :
  problems (snd (iterproblems [] foo_bar_table (Some []) None)) = [len_problem 3 3].
Proof.
  destruct (structural_only_report [] foo_bar_table (Some []) None eq_refl) as (Hp & _).
  rewrite Hp. reflexivity.
Defined.

Lemma length_problems_well_formed n i rows :
  Forall (fun row => length row = n) rows -> length_problems n i rows = [].
Proof.
  intros Hw. revert i. induction Hw as [|row rows Hrow _ IH]; intros i;
    cbn [length_problems]; [done|].
  by rewrite IH, Hrow, Nat.eqb_refl.
Qed.

Lemma yields_app t1 t2 : yields (t1 ++ t2) = yields t1 ++ yields t2.
Proof. unfold yields. by rewrite omap_app. Qed.

Lemma scan_blocks_well_formed flds i rows :
  Forall (fun row => length row = length flds) rows ->
  scan_blocks flds [] i rows = [].
Proof.
  intros Hw. revert i. induction Hw as [|row rows Hrow _ IH]; intros i;
    cbn [scan_blocks]; [done|].
  rewrite IH. unfold row_block, check_len. by rewrite Hrow, Nat.eqb_refl.
Qed.

(** A table all of whose rows are as long as its header, validated
    without constraints and without an expected header, yields the
    report header and nothing else. *)
Theorem well_formed_table_no_problems h tbl constraints :
  nonempty constraints = false ->
  Forall (fun row => length row = length (tbl_header tbl)) (tbl_rows tbl) ->
  emitted (snd (iterproblems h tbl constraints None)) = [Header outhdr].
Proof.
  intros Hn Hw. rewrite iterproblems_outcome.
  assert (Hr : refs_of constraints = []) by (by destruct constraints as [[|? ?]|]).
  rewrite Hr. cbn [copied compile_all fst snd check_header app].
  rewrite scan_blocks_well_formed; [done|].
  eapply Forall_impl; [exact Hw|]. cbn. intros row ->. by rewrite length_map.
Qed.

Lemma well_formed_table_no_problems_witness :
  emitted (snd (iterproblems [] a_c_table None None)) = [Header outhdr].
Proof.
  apply (well_formed_table_no_problems [] a_c_table None eq_refl).
  repeat constructor.
Defined.

(** Without an expected header there is no header check: every
    problem of the pass lies at a row index of at least 1. *)
Theorem no_expected_header_no_header_problem h tbl constraints :
  Forall (fun p => 1 <= p_row p) (problems (snd (iterproblems h tbl constraints None))).
Proof.
  rewrite iterproblems_problems. cbn [check_header fst snd ev_problems yields omap
    problems_of app]. apply validate_rows_rows.
Qed.

(** With an expected header, the header problem is reported exactly
    when the normalized expected and actual headers differ. *)
Theorem header_problem_iff h tbl constraints eh :
  In header_problem (problems (snd (iterproblems h tbl constraints (Some eh))))
  <-> map text_type eh <> map text_type (tbl_header tbl).
Proof.
  rewrite iterproblems_problems, check_header_flds, in_app_iff.
  pose proof (validate_rows_rows h (map text_type eh) constraints (tbl_rows tbl)) as Hrows.
  rewrite Forall_forall in Hrows.
  destruct (decide (map text_type eh = map text_type (tbl_header tbl))) as [Heq|Hne].
  - rewrite (check_header_match _ _ Heq). split; [|done].
    intros [[]|Hin]. apply list_elem_of_In, Hrows in Hin. cbn in Hin. lia.
  - rewrite (check_header_mismatch _ _ Hne). split; [done|]. intros _. left. by left.
Qed.

(** ** Compilation errors *)

(** A pass that ends by an exception has scanned no row: it has
    yielded the report header and at most the header problem, and has
    called no getter, test or assertion. *)
Theorem compile_error_fails_fast h tbl constraints expected_header e :
  raised (snd (iterproblems h tbl constraints expected_header)) = Some e ->
  let o := snd (iterproblems h tbl constraints expected_header) in
  trace o = Yield (Header outhdr) :: fst (check_header (tbl_header tbl) expected_header)
  /\ calls (trace o) = []
  /\ Forall (fun p => p_row p = 0) (problems o).
Proof.
  intros Hr o. subst o. rewrite iterproblems_problems.
  rewrite iterproblems_outcome in *. cbn [raised trace] in *.
  rewrite validate_rows_eq.
  destruct (nonempty constraints) eqn:Hn.
  - cbn [snd]. rewrite Hr, app_nil_r.
    split; [done|]. split.
    + change (Yield (Header outhdr) :: ?t) with ([Yield (Header outhdr)] ++ t).
      by rewrite calls_app, check_header_calls.
    + cbn. rewrite app_nil_r. apply check_header_rows.
  - assert (Hrefs : refs_of constraints = []) by (by destruct constraints as [[|? ?]|]).
    rewrite Hrefs in Hr. done.
Qed.

Lemma compile_error_fails_fast_witness :
  trace (snd (iterproblems [foo_bar_pair] foo_bar_table (Some [0]) None))
  = [Yield (Header outhdr)].
Proof.
  exact (proj1 (compile_error_fails_fast [foo_bar_pair] foo_bar_table (Some [0]) None
                  "KeyError" eq_refl)).
Defined.

Lemma index_of_present flds s : s ∈ flds -> exists i, index_of flds s = Some i.
Proof.
  induction flds as [|f flds IH]; intros Hs; [by inversion Hs|].
  cbn [index_of]. destruct (String.eqb f s) eqn:Heq; [by eexists|].
  apply elem_of_cons in Hs as [->|Hs]; [by rewrite String.eqb_refl in Heq|].
  destruct (IH Hs) as [i ->]. by eexists.
Qed.

Lemma index_of_first flds s i :
  index_of flds s = Some i -> forall j, j < i -> flds !! j <> Some s.
Proof.
  revert i. induction flds as [|f flds IH]; intros i; cbn [index_of]; [done|].
  destruct (String.eqb f s) eqn:Heq.
  - intros [= <-] j Hj. lia.
  - destruct (index_of flds s) as [i'|]; cbn; [|done].
    intros [= <-] [|j] Hj; cbn.
    + intros [= ->]. by rewrite String.eqb_refl in Heq.
    + apply (IH i' eq_refl). lia.
Qed.

Lemma compile_one_compiles flds c :
  compiles flds c -> exists og, compile_one flds c = Ok og.
Proof.
  unfold compiles, compile_one.
  destruct (c_getter c) as [g|]; [by eexists|].
  destruct (c_field c) as [f|]; [|by eexists].
  assert (Hpresent : field_in_flds f flds = true ->
            exists og, match make_getter flds f with
                       | Ok g => Ok (Some g)
                       | Raise e => Raise e
                       end = Ok og).
  { destruct f as [s|ss]; cbn [field_in_flds]; [|done].
    intros Hs%bool_decide_eq_true_1.
    destruct (index_of_present _ _ Hs) as [i Hi].
    unfold make_getter, asindices. cbn. rewrite Hi. cbn. by eexists. }
  intros [Hg | [Hf | [Ho | (s & Hf & Hs)]]]; [done|done| |].
  - rewrite Ho. destruct (field_in_flds f flds) eqn:Hin; cbn [negb]; [|by eexists].
    by apply Hpresent.
  - injection Hf as ->.
    assert (Hin : field_in_flds (FName s) flds = true) by (by apply bool_decide_eq_true_2).
    rewrite Hin. cbn [negb]. by apply Hpresent.
Qed.

Lemma compile_all_compiles flds ws :
  Forall (compiles flds) ws -> snd (compile_all flds ws) = None.
Proof.
  induction 1 as [|c ws Hc _ IH]; cbn [compile_all]; [done|].
  destruct (compile_one_compiles _ _ Hc) as [og ->].
  destruct (compile_all flds ws). exact IH.
Qed.

(** A pass ends normally when each listed constraint has a getter of
    its own, or no field, or a true 'optional', or a single field name
    that is in the effective field list: the compile loop cannot raise
    on such constraints, and nothing else in a pass is raised to the
    caller. *)
Theorem pass_ends_normally h tbl constraints expected_header :
  live h (refs_of constraints) ->
  Forall (compiles (snd (check_header (tbl_header tbl) expected_header)))
         (map (fun r => h !!! r) (refs_of constraints)) ->
  raised (snd (iterproblems h tbl constraints expected_header)) = None.
Proof.
  intros Hl Hc. rewrite iterproblems_outcome. cbn [raised].
  rewrite copied_live by done. by apply compile_all_compiles.
Qed.

Lemma pass_ends_normally_witness :
  raised (snd (iterproblems [foo_pos] foo_bar_table (Some [0]) None)) = None.
Proof.
  apply (pass_ends_normally [foo_pos] foo_bar_table (Some [0]) None).
  - repeat constructor.
  - constructor; [|constructor].
    right. right. right. exists "foo". split; [reflexivity|].
    apply (bool_decide_eq_true_1 ("foo" ∈ ["foo"; "bar"])). reflexivity.
Defined.

(** The compile loop stops at the first constraint it cannot
    compile. *)
Lemma iterproblems_compile_raise h tbl cs expected_header pre c post e :
  live h cs ->
  map (fun r => h !!! r) cs = pre ++ c :: post ->
  snd (compile_all (snd (check_header (tbl_header tbl) expected_header)) pre) = None ->
  compile_one (snd (check_header (tbl_header tbl) expected_header)) c = Raise e ->
  snd (iterproblems h tbl (Some cs) expected_header)
  = mkOutcome (Yield (Header outhdr) :: fst (check_header (tbl_header tbl) expected_header))
              (Some e).
Proof.
  intros Hl Hcs Hpre Hc. rewrite iterproblems_outcome. cbn [refs_of].
  rewrite copied_live, Hcs by done. cbv zeta.
  assert (Hsnd : snd (compile_all (snd (check_header (tbl_header tbl) expected_header))
                        (pre ++ c :: post)) = Some e).
  { rewrite compile_all_app, Hpre. cbn [compile_all]. by rewrite Hc. }
  rewrite Hsnd. by rewrite app_nil_r.
Qed.

(** A constraint without getter whose single field name is absent
    from the effective field list and whose 'optional' is false, the
    constraints listed before it compiling without error: the pass
    ends with FieldSelectionError, raised by the field resolution,
    after the report header and at most the header problem. *)
Theorem absent_field_not_optional_raises h tbl cs expected_header pre c post s :
  live h cs ->
  map (fun r => h !!! r) cs = pre ++ c :: post ->
  snd (compile_all (snd (check_header (tbl_header tbl) expected_header)) pre) = None ->
  c_getter c = None -> c_field c = Some (FName s) -> c_optional c = Some false ->
  s ∉ snd (check_header (tbl_header tbl) expected_header) ->
  snd (iterproblems h tbl (Some cs) expected_header)
  = mkOutcome (Yield (Header outhdr) :: fst (check_header (tbl_header tbl) expected_header))
              (Some "FieldSelectionError").
Proof.
  intros Hl Hcs Hpre Hg Hf Ho Hs.
  apply (iterproblems_compile_raise h tbl cs expected_header pre c post); try done.
  rewrite (compile_one_absent _ c s) by done. by rewrite Ho.
Qed.

Lemma absent_field_not_optional_raises_witness :
  snd (iterproblems [x_first; x_req] foo_bar_table (Some [0; 1]) None)
  = mkOutcome [Yield (Header outhdr)] (Some "FieldSelectionError").
Proof.
  apply (absent_field_not_optional_raises [x_first; x_req] foo_bar_table [0; 1] None
           [x_first] x_req [] "x");
    try reflexivity.
  - repeat constructor.
  - apply (bool_decide_eq_false_1 ("x" ∈ ["foo"; "bar"])). reflexivity.
Defined.

(** ** Getters built by the compile loop *)

(** A constraint without getter whose field is a single name of the
    effective field list gets, whatever its 'optional' key says or
    whether it has one, a getter that reads the row at the first
    position of that name; on a row too short to have that position it
    reads None. *)
Theorem single_name_getter flds c s :
  c_getter c = None -> c_field c = Some (FName s) -> s ∈ flds ->
  exists g i,
    compile_one flds c = Ok (Some g)
    /\ flds !! i = Some s /\ (forall j, j < i -> flds !! j <> Some s)
    /\ forall row, g (mkRecord row flds) = Ok (default VNone (row !! i)).
Proof.
  intros Hg Hf Hs. destruct (index_of_present _ _ Hs) as [i Hi].
  exists (fun r => Ok (Record_getitem r i)), i.
  split; [|split; [by apply index_of_lookup|split; [by apply index_of_first|done]]].
  unfold compile_one. rewrite Hg, Hf. cbn [field_in_flds].
  rewrite bool_decide_eq_true_2 by done. cbn [negb].
  unfold make_getter, asindices. cbn. by rewrite Hi.
Qed.

Lemma single_name_getter_witness :
  exists g i,
    compile_one ["foo"; "bar"] foo_pos = Ok (Some g)
    /\ ["foo"; "bar"] !! i = Some "foo" /\ (forall j, j < i -> ["foo"; "bar"] !! j <> Some "foo")
    /\ forall row, g (mkRecord row ["foo"; "bar"]) = Ok (default VNone (row !! i)).
Proof.
  apply (single_name_getter ["foo"; "bar"] foo_pos "foo"); try reflexivity.
  apply (bool_decide_eq_true_1 ("foo" ∈ ["foo"; "bar"])). reflexivity.
Defined.

Lemma resolve_names_present flds names :
  Forall (fun s => s ∈ flds) names -> exists idx, resolve_names flds names = Ok idx.
Proof.
  induction 1 as [|s names Hs _ [idx IH]]; cbn [resolve_names]; [by eexists|].
  destruct (index_of_present _ _ Hs) as [i ->]. rewrite IH. by eexists.
Qed.

(** A constraint without getter whose field is a collection of two or
    more names, all in the effective field list, and whose 'optional'
    key is present and false gets a getter that reads the tuple of the
    row's values at the positions of the names, in the order the names
    were given. *)
Theorem several_names_getter flds c names :
  c_getter c = None -> c_field c = Some (FNames names) -> c_optional c = Some false ->
  2 <= length names -> Forall (fun s => s ∈ flds) names ->
  exists g idx,
    compile_one flds c = Ok (Some g)
    /\ Forall2 (fun s i => flds !! i = Some s) names idx
    /\ forall row, g (mkRecord row flds)
                   = Ok (VTuple (map (fun i => default VNone (row !! i)) idx)).
Proof.
  intros Hg Hf Ho Hlen Hall.
  destruct (resolve_names_present _ _ Hall) as [idx Hidx].
  destruct (make_getter_several _ _ _ Hidx Hlen) as (g & Hmk & Hgr).
  exists g, idx. split; [|split].
  - rewrite (compile_one_several flds c names) by done. by rewrite Ho, Hmk.
  - by apply resolve_names_lookup.
  - intros row. by rewrite Hgr.
Qed.

Lemma several_names_getter_witness :
  exists g idx,
    compile_one ["foo"; "bar"]
      {| c_name := Some "bar_foo"; c_field := Some (FNames ["bar"; "foo"]);
         c_optional := Some false; c_getter := None; c_test := None;
         c_assertion := None |} = Ok (Some g)
    /\ Forall2 (fun s i => ["foo"; "bar"] !! i = Some s) ["bar"; "foo"] idx
    /\ forall row, g (mkRecord row ["foo"; "bar"])
                   = Ok (VTuple (map (fun i => default VNone (row !! i)) idx)).
Proof.
  apply (several_names_getter ["foo"; "bar"]
           {| c_name := Some "bar_foo"; c_field := Some (FNames ["bar"; "foo"]);
              c_optional := Some false; c_getter := None; c_test := None;
              c_assertion := None |} ["bar"; "foo"]); try reflexivity.
  repeat constructor.
Defined.

(** A collection holding one name of the field list (with 'optional'
    false) gets a getter for the bare value at the name's position, not
    a tuple of one value; an empty collection (with 'optional' false)
    makes the compile loop raise TypeError, as itemgetter is called
    without an index. *)
Theorem short_collections flds c :
  c_getter c = None -> c_optional c = Some false ->
  (forall s, c_field c = Some (FNames [s]) -> s ∈ flds ->
     exists g i, compile_one flds c = Ok (Some g) /\ flds !! i = Some s
                 /\ forall row, g (mkRecord row flds) = Ok (default VNone (row !! i)))
  /\ (c_field c = Some (FNames []) -> compile_one flds c = Raise "TypeError").
Proof.
  intros Hg Ho. split.
  - intros s Hf Hs. destruct (index_of_present _ _ Hs) as [i Hi].
    exists (fun r => Ok (Record_getitem r i)), i.
    split; [|split; [by apply index_of_lookup|done]].
    rewrite (compile_one_several flds c [s]) by done. rewrite Ho.
    unfold make_getter, asindices. cbn. by rewrite Hi.
  - intros Hf. rewrite (compile_one_several flds c []) by done. by rewrite Ho.
Qed.

Lemma short_collections_witness :
  compile_one ["foo"]
    {| c_name := None; c_field := Some (FNames []); c_optional := Some false;
       c_getter := None; c_test := None; c_assertion := None |} = Raise "TypeError".
Proof.
  exact (proj2 (short_collections ["foo"]
                  {| c_name := None; c_field := Some (FNames []); c_optional := Some false;
                     c_getter := None; c_test := None; c_assertion := None |}
                  eq_refl eq_refl) eq_refl).
Defined.

(** Extraction with a getter the compile loop built, or with the
    default getter of a constraint left without one, never fails: an
    extraction problem can only come from a getter the caller
    supplied. *)
Theorem built_getters_never_fail flds c og row :
  c_getter c = None -> compile_one flds c = Ok og ->
  exists target, getter_of (attach og c) (mkRecord row flds) = Ok target.
Proof.
  intros Hg Hc. destruct og as [g|]; cbn [attach].
  - unfold getter_of. cbn.
    unfold compile_one in Hc. rewrite Hg in Hc.
    destruct (c_field c) as [f|]; [|done].
    assert (Hmk : make_getter flds f = Ok g).
    { destruct (negb (field_in_flds f flds)); [destruct (c_optional c) as [[|]|]|];
        try done; destruct (make_getter flds f); by inversion Hc. }
    unfold make_getter in Hmk. destruct (asindices flds f) as [idx|]; [|done].
    destruct idx as [|i [|j idx]]; cbn in Hmk; [done| |]; injection Hmk as <-; by eexists.
  - unfold getter_of. rewrite Hg. by eexists.
Qed.

Lemma built_getters_never_fail_witness :
  exists target,
    getter_of (attach None x_chk) (mkRecord [VInt 1] ["a"]) = Ok target.
Proof.
  exact (built_getters_never_fail ["a"] x_chk None [VInt 1] eq_refl eq_refl).
Defined.

(** ** One constraint against one row, further *)

(** A constraint yields no problem on a row exactly when its getter
    returns a target, its test (if any) returns on that target, and its
    assertion (if any) returns a truthy value on it. *)
Theorem no_problem_iff c i row :
  yields (check_constraint c i row) = [] <->
  exists target,
    getter_of c row = Ok target
    /\ (forall t, c_test c = Some t -> exists v, t target = Ok v)
    /\ (forall a, c_assertion c = Some a -> assertion_failure (a target) = None).
Proof.
  unfold check_constraint, run_test, run_assertion, assertion_failure.
  destruct (getter_of c row) as [target|e]; cbn; [|split; [done|by intros (? & ? & _)]].
  split.
  - intros Hy. exists target. split; [done|]. split.
    + intros t Ht. rewrite Ht in Hy. cbn in Hy.
      destruct (t target) as [v|]; [by eexists|done].
    + intros a Ha. rewrite Ha in Hy.
      destruct (c_test c) as [t|]; cbn in Hy.
      * destruct (t target); cbn in Hy; [|done].
        destruct (a target) as [w|]; [|done]. by destruct (truthy w).
      * destruct (a target) as [w|]; [|done]. by destruct (truthy w).
  - intros (target' & [= <-] & Ht & Ha).
    assert (Hrt : match c_test c with
                  | Some test =>
                      Call Test target ::
                      match test target with
                      | Ok _ => []
                      | Raise e =>
                          [Yield (Problem (mkProblem (c_name c) (i + 1) (c_field c)
                             (if field_truthy (c_field c) then target else VNone) e))]
                      end
                  | None => []
                  end = match c_test c with Some _ => [Call Test target] | None => [] end).
    { destruct (c_test c) as [t|]; [|done]. by destruct (Ht t eq_refl) as [v ->]. }
    rewrite Hrt.
    destruct (c_assertion c) as [a|].
    + specialize (Ha a eq_refl). destruct (a target) as [w|]; [|done].
      destruct (truthy w); [|done]. by destruct (c_test c).
    + by destruct (c_test c).
Qed.



Lemma check_constraint_count c i row :
  getter_calls (check_constraint c i row) = 1
  /\ length (ev_problems (check_constraint c i row)) <= 2.
Proof.
  unfold check_constraint, run_test, run_assertion.
  destruct (getter_of c row) as [target|e]; [|split; cbn; [done|lia]].
  destruct (c_test c) as [t|], (c_assertion c) as [a|]; cbn;
    repeat match goal with
           | |- context [match ?f target with _ => _ end] => destruct (f target); cbn
           | |- context [if truthy ?v then _ else _] => destruct (truthy v); cbn
           end;
    split; (done || lia).
Qed.

Lemma getter_calls_app t1 t2 : getter_calls (t1 ++ t2) = getter_calls t1 + getter_calls t2.
Proof. unfold getter_calls. by rewrite calls_app, filter_app, length_app. Qed.

Lemma row_block_count flds ws i row :
  getter_calls (row_block flds ws i row) = length ws
  /\ length (ev_problems (row_block flds ws i row)) <= 1 + 2 * length ws.
Proof.
  unfold row_block. rewrite getter_calls_app, ev_problems_app, length_app.
  assert (Hlen : getter_calls (check_len (length flds) i row) = 0
                 /\ length (ev_problems (check_len (length flds) i row)) <= 1).
  { unfold check_len. destruct (Nat.eqb _ _); cbn; split; (done || lia). }
  destruct Hlen as [-> Hlen].
  assert (Hcs : getter_calls (flat_map (fun c => check_constraint c i (mkRecord row flds)) ws)
                = length ws
                /\ length (ev_problems
                     (flat_map (fun c => check_constraint c i (mkRecord row flds)) ws))
                   <= 2 * length ws).
  { induction ws as [|c ws [IHg IHp]]; cbn [flat_map length]; [split; cbn; (done || lia)|].
    rewrite getter_calls_app, ev_problems_app, length_app, IHg.
    destruct (check_constraint_count c i (mkRecord row flds)) as [-> Hp]. split; lia. }
  destruct Hcs as [-> Hcs]. split; lia.
Qed.

Lemma scan_blocks_count flds ws i rows :
  getter_calls (scan_blocks flds ws i rows) = length rows * length ws
  /\ length (ev_problems (scan_blocks flds ws i rows)) <= length rows * (1 + 2 * length ws)
  /\ Forall (fun p => p_row p <= i + length rows) (ev_problems (scan_blocks flds ws i rows)).
Proof.
  revert i. induction rows as [|row rows IH]; intros i; cbn [scan_blocks length].
  - repeat split; cbn; (done || lia || constructor).
  - destruct (IH (S i)) as (IHg & IHp & IHr).
    destruct (row_block_count flds ws i row) as [Hg Hp].
    rewrite getter_calls_app, ev_problems_app, length_app, Hg, IHg.
    split; [lia|]. split; [lia|].
    apply Forall_app. split.
    + eapply Forall_impl; [apply row_block_rows|]. cbn. lia.
    + eapply Forall_impl; [exact IHr|]. cbn. lia.
Qed.

(** ** The row loop as a whole *)



(** The size of a report is bounded: at most one header problem, and
    per data row at most one row-length problem and two problems per
    listed constraint. Every problem's row index is at most the number
    of data rows. *)
Theorem report_size_bound h tbl constraints expected_header :
  let o := snd (iterproblems h tbl constraints expected_header) in
  length (problems o)
    <= 1 + length (tbl_rows tbl) * (1 + 2 * length (refs_of constraints))
  /\ Forall (fun p => p_row p <= length (tbl_rows tbl)) (problems o).
Proof.
  intros o. subst o. rewrite iterproblems_problems.
  set (flds := snd (check_header (tbl_header tbl) expected_header)).
  assert (Hh : length (ev_problems (fst (check_header (tbl_header tbl) expected_header))) <= 1).
  { destruct (check_header_events (tbl_header tbl) expected_header) as [-> | ->]; cbn; lia. }
  assert (Hbody : length (problems (snd (validate_rows h flds constraints (tbl_rows tbl))))
                  <= length (tbl_rows tbl) * (1 + 2 * length (refs_of constraints))
                  /\ Forall (fun p => p_row p <= length (tbl_rows tbl))
                            (problems (snd (validate_rows h flds constraints (tbl_rows tbl))))).
  { rewrite validate_rows_eq. destruct (nonempty constraints) eqn:Hn; cbn [snd].
    - destruct (snd (compile_all flds (copied h (refs_of constraints)))).
      + split; [cbn; lia | constructor].
      + destruct (scan_blocks_count flds
                    (fst (compile_all flds (copied h (refs_of constraints))))
                    0 (tbl_rows tbl)) as (_ & Hp & Hr).
        rewrite compile_all_length, copied_length in Hp. split; [exact Hp | exact Hr].
    - destruct (scan_blocks_count flds [] 0 (tbl_rows tbl)) as (_ & Hp & Hr).
      split; [|exact Hr]. cbn [length] in Hp.
      unfold problems, emitted. cbn [trace]. fold (ev_problems
        (scan_blocks flds [] 0 (tbl_rows tbl))). lia. }
  destruct Hbody as [Hlen Hrows]. split.
  - rewrite length_app. lia.
  - apply Forall_app. split; [|exact Hrows].
    eapply Forall_impl; [apply check_header_rows|]. cbn. lia.
Qed.

Lemma scan_blocks_len_problem flds ws i rows k row :
  rows !! k = Some row -> length row <> length flds ->
  In (len_problem (i + k + 1) (length row)) (ev_problems (scan_blocks flds ws i rows)).
Proof.
  revert i k. induction rows as [|r rows IH]; intros i k; [done|].
  cbn [scan_blocks]. rewrite ev_problems_app, in_app_iff.
  destruct k as [|k]; cbn.
  - intros [= ->] Hne. left. unfold row_block, check_len.
    rewrite ev_problems_app, in_app_iff. left.
    apply Nat.eqb_neq in Hne. rewrite Hne, Nat.add_0_r. by left.
  - intros Hk Hne. right. replace (i + S k + 1) with (S i + k + 1) by lia. by apply IH.
Qed.

(** In a pass that ends normally, every data row whose length differs
    from the number of fields of the effective field list is reported
    with a row-length problem carrying its 1-based index and its actual
    length, whatever constraints there are. *)
Theorem row_length_problem_reported h tbl constraints expected_header k row :
  raised (snd (iterproblems h tbl constraints expected_header)) = None ->
  tbl_rows tbl !! k = Some row ->
  length row <> length (snd (check_header (tbl_header tbl) expected_header)) ->
  In (len_problem (k + 1) (length row))
     (problems (snd (iterproblems h tbl constraints expected_header))).
Proof.
  intros Hr Hk Hne. rewrite iterproblems_outcome in Hr. cbn [raised] in Hr.
  rewrite iterproblems_problems, in_app_iff. right.
  rewrite validate_rows_eq. destruct (nonempty constraints) eqn:Hn; cbn [snd].
  - rewrite Hr. by apply (scan_blocks_len_problem _ _ 0).
  - by apply (scan_blocks_len_problem _ _ 0).
Qed.

Lemma row_length_problem_reported_witness :
  In (len_problem 3 3)
     (problems (snd (iterproblems [foo_pos] foo_bar_table (Some [0]) None))).
Proof.
  apply (row_length_problem_reported [foo_pos] foo_bar_table (Some [0]) None 2
           [VInt 2; VStr "c"; VStr "extra"] eq_refl eq_refl).
  simpl. lia.
Defined.

(** A table without data rows: the pass still compiles the
    constraints, so a constraint that cannot be compiled still ends it
    by an exception; in either case it yields the report header and at
    most the header problem, and calls nothing. *)
Theorem no_data_rows h tbl constraints expected_header :
  tbl_rows tbl = [] ->
  let o := snd (iterproblems h tbl constraints expected_header) in
  trace o = Yield (Header outhdr) :: fst (check_header (tbl_header tbl) expected_header)
  /\ raised o = snd (compile_all (snd (check_header (tbl_header tbl) expected_header))
                       (copied h (refs_of constraints))).
Proof.
  intros Hrows o. subst o. rewrite iterproblems_outcome, Hrows. cbn [trace raised scan_blocks].
  split; [|done].
  destruct (snd (compile_all _ _)); by rewrite app_nil_r.
Qed.

Lemma no_data_rows_witness :
  snd (iterproblems [foo_bar_pair] (mkTable [HStr "foo"; HStr "bar"] []) (Some [0]) None)
  = mkOutcome [Yield (Header outhdr)] (Some "KeyError").
Proof.
  destruct (no_data_rows [foo_bar_pair] (mkTable [HStr "foo"; HStr "bar"] []) (Some [0]) None
              eq_refl) as [Ht Hr].
  destruct (snd (iterproblems [foo_bar_pair] (mkTable [HStr "foo"; HStr "bar"] [])
                   (Some [0]) None)) as [t r].
  cbn [trace raised] in Ht, Hr. rewrite Ht, Hr. reflexivity.
Defined.

(** When extraction succeeds, the test (if any) and then the
    assertion (if any) are both called, on the extracted target itself
    (also for a constraint without field, whose reported value is
    None): a test that raises does not keep the assertion from being
    evaluated. *)
Theorem test_does_not_short_circuit c i row target :
  getter_of c row = Ok target ->
  calls_with_args (check_constraint c i row) =
    (Getter, Record_value row)
    :: match c_test c with Some _ => [(Test, target)] | None => [] end
    ++ match c_assertion c with Some _ => [(Assertion, target)] | None => [] end.
Proof.
  intros Hg. unfold check_constraint, run_test, run_assertion. rewrite Hg.
  destruct (c_test c) as [t|], (c_assertion c) as [a|]; cbn;
    repeat match goal with
           | |- context [match ?f target with _ => _ end] => destruct (f target); cbn
           | |- context [if truthy ?v then _ else _] => destruct (truthy v); cbn
           end;
    done.
Qed.

Lemma test_does_not_short_circuit_witness :
  calls_with_args (check_constraint (set_getter (fun r => Ok (Record_getitem r 0)) both_fail) 0
                     (mkRecord [VInt 7; VStr "a"] ["foo"; "bar"]))
  = [ (Getter, VRecord [VInt 7; VStr "a"] ["foo"; "bar"]);
      (Test, VInt 7); (Assertion, VInt 7) ].
Proof.
  exact (test_does_not_short_circuit
           (set_getter (fun r => Ok (Record_getitem r 0)) both_fail) 0
           (mkRecord [VInt 7; VStr "a"] ["foo"; "bar"]) (VInt 7) eq_refl).
Defined.
